(** * shared/idmap: the identifier-mapping set (set.go)

    A shallow embedding of [IdmapSet] and of the operations defined on it in
    [shared/idmap/set.go], together with the properties of the set's
    specification that concern them.

    Go's [int64] is modelled as [Z] with the two's-complement wrap-around
    written out ([wrap64]); a slice of entries is a [list Entry]; a possibly
    nil [*IdmapSet] is an [option IdmapSet]; a method that mutates its
    receiver and returns an [error] returns the receiver's new state together
    with an [option error]. *)

From Stdlib Require Import ZArith List Bool Ascii String Lia Permutation.
From Stdlib Require Import DecimalString DecimalZ DecimalPos.
Import ListNotations.
Open Scope Z_scope.

(** ** 64-bit signed arithmetic *)

Definition min_int64 : Z := - 2 ^ 63.
Definition max_int64 : Z := 2 ^ 63 - 1.

Definition wrap64 (z : Z) : Z := (z + 2 ^ 63) mod 2 ^ 64 - 2 ^ 63.

Definition add64 (a b : Z) : Z := wrap64 (a + b).
Definition sub64 (a b : Z) : Z := wrap64 (a - b).

Definition in_int64 (z : Z) : Prop := min_int64 <= z <= max_int64.

(** ** The data model *)

(** [Entry] is declared in the package's entry file; the set only relies on
    its five fields, named as the composite literals of [Equals] and
    [AddSafe] name them. *)
Record Entry : Type := mkEntry {
  Isuid : bool;
  Isgid : bool;
  Hostid : Z;
  Nsid : Z;
  Maprange : Z
}.

Record IdmapSet : Type := mkIdmapSet { Idmap : list Entry }.

(** [IDRange], as the composite literal of [ValidRanges] builds it. *)
Record IDRange : Type := mkIDRange {
  rIsuid : bool;
  rIsgid : bool;
  Startid : Z;
  Endid : Z
}.

Inductive error : Type :=
| ErrHostIDIsSubID
| Errorf (msg : string).

Inductive result (A : Type) : Type :=
| Ok (a : A)
| Err (e : error).
Arguments Ok {A} a.
Arguments Err {A} e.

Definition Entry_eqb (a b : Entry) : bool :=
  Bool.eqb (Isuid a) (Isuid b) && Bool.eqb (Isgid a) (Isgid b)
  && (Hostid a =? Hostid b) && (Nsid a =? Nsid b) && (Maprange a =? Maprange b).

Fixpoint Entries_eqb (l1 l2 : list Entry) : bool :=
  match l1, l2 with
  | [], [] => true
  | a :: l1', b :: l2' => Entry_eqb a b && Entries_eqb l1' l2'
  | _, _ => false
  end.

(** ** Entry operations *)

(** Last ID of the range of [r] consecutive IDs that starts at [a]. *)
Definition range_last (a r : Z) : Z := sub64 (add64 a r) 1.

(** Two inclusive ranges overlap when they share an ID. *)
Definition ranges_overlap (a r b s : Z) : bool :=
  Z.max a b <=? Z.min (range_last a r) (range_last b s).

Definition shared_tag (e i : Entry) : bool :=
  (Isuid e && Isuid i) || (Isgid e && Isgid i).

(** Modelled from the spec: [Entry.Intersects] is not part of set.go.
    "true if the namespace-ID ranges of the two entries overlap AND both
    apply to at least one shared tag (UID-UID or GID-GID)", the namespace
    range of an entry being [nsID, nsID+mapRange-1]. *)
Definition Entry_Intersects (e i : Entry) : bool :=
  shared_tag e i
  && ranges_overlap (Nsid e) (Maprange e) (Nsid i) (Maprange i).

(** Modelled from the spec: [Entry.HostidsIntersect] is not part of set.go.
    "true if the host-ID ranges overlap for a shared tag", the host range
    of an entry being [hostID, hostID+mapRange-1]. *)
Definition Entry_HostidsIntersect (e i : Entry) : bool :=
  shared_tag e i
  && ranges_overlap (Hostid e) (Maprange e) (Hostid i) (Maprange i).

(** Modelled from the spec: [Entry.shiftIntoNS] is not part of set.go.
    "given a host-side ID, if it falls inside [hostID, hostID+mapRange-1],
    returns the corresponding namespace ID (nsID + (id - hostID)) and
    success; otherwise fails with NotInRange". *)
Definition Entry_shiftIntoNS (e : Entry) (id : Z) : result Z :=
  if (Hostid e <=? id) && (id <=? range_last (Hostid e) (Maprange e))
  then Ok (add64 (Nsid e) (sub64 id (Hostid e)))
  else Err (Errorf "NotInRange").

(** Modelled from the spec: [Entry.shiftFromNS] is not part of set.go.
    "symmetric, namespace -> host". *)
Definition Entry_shiftFromNS (e : Entry) (id : Z) : result Z :=
  if (Nsid e <=? id) && (id <=? range_last (Nsid e) (Maprange e))
  then Ok (add64 (Hostid e) (sub64 id (Nsid e)))
  else Err (Errorf "NotInRange").

(** ** Set-level queries *)

(** [IdmapSet.Intersects]: the receiver of the entry-level test is the
    candidate [i]. *)
Fixpoint Intersects_loop (i : Entry) (es : list Entry) : bool :=
  match es with
  | [] => false
  | e :: rest => if Entry_Intersects i e then true else Intersects_loop i rest
  end.

Definition Intersects (m : IdmapSet) (i : Entry) : bool :=
  Intersects_loop i (Idmap m).

Fixpoint HostidsIntersect_loop (i : Entry) (es : list Entry) : bool :=
  match es with
  | [] => false
  | e :: rest =>
      if Entry_HostidsIntersect i e then true else HostidsIntersect_loop i rest
  end.

Definition HostidsIntersect (m : IdmapSet) (i : Entry) : bool :=
  HostidsIntersect_loop i (Idmap m).

(** ** Safe mutation *)

(** The body of the [for] loop of [AddSafe], over the entries still to be
    visited, with the local variables [result] and [added] as accumulators.
    The early [return ErrHostIDIsSubID] is the [Err] result. *)
Fixpoint AddSafe_loop (i : Entry) (es : list Entry)
    (res : list Entry) (added : bool) : result (list Entry * bool) :=
  match es with
  | [] => Ok (res, added)
  | e :: rest =>
      if negb (Entry_Intersects e i) then
        AddSafe_loop i rest (res ++ [e]) added
      else if Entry_HostidsIntersect e i then
        Err ErrHostIDIsSubID
      else
        let lower := {| Isuid := Isuid e; Isgid := Isgid e;
                        Hostid := Hostid e; Nsid := Nsid e;
                        Maprange := sub64 (Nsid i) (Nsid e) |} in
        let upper := {| Isuid := Isuid e; Isgid := Isgid e;
                        Hostid := add64 (add64 (Hostid e) (Maprange lower))
                                        (Maprange i);
                        Nsid := add64 (Nsid i) (Maprange i);
                        Maprange := sub64 (sub64 (Maprange e) (Maprange i))
                                          (Maprange lower) |} in
        let res1 := if 0 <? Maprange lower then res ++ [lower] else res in
        let res2 := res1 ++ [i] in
        let res3 := if 0 <? Maprange upper then res2 ++ [upper] else res2 in
        AddSafe_loop i rest res3 true
  end.

(** [AddSafe]: the new state of the receiver and the returned error. The
    field [m.Idmap] is assigned only after the loop has run to its end. *)
Definition AddSafe (m : IdmapSet) (i : Entry) : IdmapSet * option error :=
  match AddSafe_loop i (Idmap m) [] false with
  | Err err => (m, Some err)
  | Ok (res, added) =>
      let res' := if negb added then res ++ [i] else res in
      ({| Idmap := res' |}, None)
  end.

(** ** The canonical order and the host-ID order *)

(** [IdmapSet.Less], on the entries found at the two indices. *)
Definition Less (a b : Entry) : bool :=
  if negb (Bool.eqb (Isuid a) (Isuid b)) then Isuid a
  else if negb (Bool.eqb (Isgid a) (Isgid b)) then Isgid a
  else Nsid a <? Nsid b.

(** [ByHostID.Less]. *)
Definition ByHostID_Less (a b : Entry) : bool := Hostid a <? Hostid b.

(** ** The standard library's [sort.Sort] *)

Definition strict_weak (less : Entry -> Entry -> bool) : Prop :=
  (forall a, less a a = false)
  /\ (forall a b c, less a b = true -> less b c = true -> less a c = true)
  /\ (forall a b c, less a b = false -> less b c = false -> less a c = false).

(** No later element is less than an earlier one. *)
Inductive ascending (less : Entry -> Entry -> bool) : list Entry -> Prop :=
| asc_nil : ascending less []
| asc_cons : forall a l,
    Forall (fun b => less b a = false) l -> ascending less l ->
    ascending less (a :: l).

(** [sort.Sort] belongs to Go's standard library. Its contract: it
    rearranges the data through [Swap] only, and leaves it in ascending order
    as determined by [Less]; "the sort is not guaranteed to be stable". *)
Class GoSort : Type := {
  sort_Sort : (Entry -> Entry -> bool) -> list Entry -> list Entry;
  sort_Sort_perm : forall less l, Permutation l (sort_Sort less l);
  sort_Sort_ascending : forall less l,
      strict_weak less -> ascending less (sort_Sort less l)
}.

(** The keys of [a] and [b] are tied: neither is less than the other. *)
Definition tied (less : Entry -> Entry -> bool) (a b : Entry) : bool :=
  negb (less a b) && negb (less b a).

(** Stability, for an output [out] of a sort of [l]: the sublist of the
    entries tied with [x] is the same in [out] as in [l]. *)
Definition stable_on (less : Entry -> Entry -> bool) (l out : list Entry) : Prop :=
  forall x, filter (tied less x) out = filter (tied less x) l.

(** ** Equals *)

Section WithSort.
Context {S : GoSort}.

(** The closure [expandSortIdmap] of [Equals]. *)
Definition expandSortIdmap (input : option IdmapSet) : IdmapSet :=
  let input := match input with None => mkIdmapSet [] | Some s => s end in
  let newEntries :=
    fold_left
      (fun newEntries entry =>
         if Isuid entry && Isgid entry then
           (newEntries
              ++ [mkEntry true false (Hostid entry) (Nsid entry) (Maprange entry)])
              ++ [mkEntry false true (Hostid entry) (Nsid entry) (Maprange entry)]
         else newEntries ++ [entry])
      (Idmap input) [] in
  mkIdmapSet (sort_Sort Less newEntries).

(** [reflect.DeepEqual] on the two normalised sets: both slices are non-nil,
    so it compares them element by element, field by field. *)
Definition Equals (m other : option IdmapSet) : bool :=
  Entries_eqb (Idmap (expandSortIdmap m)) (Idmap (expandSortIdmap other)).

(** ** ValidRanges *)

(** The inner loop of [ValidRanges] and the update through the pointer it
    finds: the first range with the entry's tags that ends right before the
    entry is extended in place; [None] when the loop leaves [entry] nil. *)
Fixpoint extend_range (mapEntry : Entry) (ranges : list IDRange)
    : option (list IDRange) :=
  match ranges with
  | [] => None
  | idEntry :: rest =>
      if negb (Bool.eqb (Isuid mapEntry) (rIsuid idEntry))
         || negb (Bool.eqb (Isgid mapEntry) (rIsgid idEntry))
      then option_map (cons idEntry) (extend_range mapEntry rest)
      else if add64 (Endid idEntry) 1 =? Nsid mapEntry
      then Some ({| rIsuid := rIsuid idEntry; rIsgid := rIsgid idEntry;
                    Startid := Startid idEntry;
                    Endid := add64 (Endid idEntry) (Maprange mapEntry) |}
                   :: rest)
      else option_map (cons idEntry) (extend_range mapEntry rest)
  end.

Definition ValidRanges_step (ranges : list IDRange) (mapEntry : Entry)
    : list IDRange :=
  match extend_range mapEntry ranges with
  | Some ranges' => ranges'
  | None =>
      ranges ++ [{| rIsuid := Isuid mapEntry; rIsgid := Isgid mapEntry;
                    Startid := Nsid mapEntry;
                    Endid := sub64 (add64 (Nsid mapEntry) (Maprange mapEntry)) 1 |}]
  end.

(** [util.DeepCopy] lives outside this package; it yields a copy of the
    set, and a copy of a value is that value. *)
Definition util_DeepCopy (m : IdmapSet) : result IdmapSet := Ok m.

Definition ValidRanges (m : IdmapSet) : result (list IDRange) :=
  match util_DeepCopy m with
  | Err err => Err err
  | Ok idmap =>
      let idmap := mkIdmapSet (sort_Sort Less (Idmap idmap)) in
      Ok (fold_left ValidRanges_step (Idmap idmap) [])
  end.

End WithSort.

(** ** Append *)

Section WithParse.
(** [Entry.parse] is part of the entry file; the textual grammar it accepts
    is left open here. *)
Variable parse : string -> result Entry.

Definition Append (m : IdmapSet) (s : string) : IdmapSet * option error :=
  match parse s with
  | Err err => (m, Some err)
  | Ok e =>
      if Intersects m e then (m, Some (Errorf "Conflicting id mapping"))
      else ({| Idmap := Idmap m ++ [e] |}, None)
  end.

End WithParse.

(** ** Shifting *)

(** The [switch how] of [doShiftIntoNs]: with any other string no case is
    taken, and the temporary and [err] keep their zero values. *)
Definition shift_how (how : string) (e : Entry) (id : Z) : result Z :=
  if String.eqb how "in" then Entry_shiftIntoNS e id
  else if String.eqb how "out" then Entry_shiftFromNS e id
  else Ok 0.

Fixpoint doShiftIntoNs_loop (how : string) (uid gid : Z) (es : list Entry)
    (u g : Z) : Z * Z :=
  match es with
  | [] => (u, g)
  | e :: rest =>
      let u' :=
        if Isuid e && (u =? -1) then
          match shift_how how e uid with Ok tmpu => tmpu | Err _ => u end
        else u in
      let g' :=
        if Isgid e && (g =? -1) then
          match shift_how how e gid with Ok tmpg => tmpg | Err _ => g end
        else g in
      doShiftIntoNs_loop how uid gid rest u' g'
  end.

Definition doShiftIntoNs (m : IdmapSet) (uid gid : Z) (how : string) : Z * Z :=
  doShiftIntoNs_loop how uid gid (Idmap m) (-1) (-1).

Definition ShiftIntoNs (m : IdmapSet) (uid gid : Z) : Z * Z :=
  doShiftIntoNs m uid gid "in".

Definition ShiftFromNs (m : IdmapSet) (uid gid : Z) : Z * Z :=
  doShiftIntoNs m uid gid "out".

(** ** JSON *)

(** [encoding/json] belongs to Go's standard library. An [Entry] holds two
    booleans and three 64-bit integers, so a slice of entries always encodes,
    and decoding the encoding gives the slice back. *)
Class GoJSON : Type := {
  json_Marshal : list Entry -> result string;
  json_Unmarshal : string -> result (list Entry);
  json_Marshal_ok : forall l, exists s, json_Marshal l = Ok s;
  json_roundtrip : forall l s, json_Marshal l = Ok s -> json_Unmarshal s = Ok l
}.

Section WithJSON.
Context {J : GoJSON}.

(** [JSONUnmarshal]: the returned pointer, nil as [None], and the error. *)
Definition JSONUnmarshal (idmapJSON : string) : option IdmapSet * option error :=
  match json_Unmarshal idmapJSON with
  | Err err => (None, Some err)
  | Ok entries =>
      if Nat.eqb (List.length entries) 0 then (None, None)
      else (Some {| Idmap := entries |}, None)
  end.

Definition JSONMarshal (idmapSet : IdmapSet) : string * option error :=
  match json_Marshal (Idmap idmapSet) with
  | Err err => (EmptyString, Some err)
  | Ok idmapBytes => (idmapBytes, None)
  end.

End WithJSON.

Definition uidE (h n r : Z) : Entry := mkEntry true false h n r.
Definition gidE (h n r : Z) : Entry := mkEntry false true h n r.
Definition bothE (h n r : Z) : Entry := mkEntry true true h n r.


(** ** Two sorts that meet the contract of [sort.Sort] *)

(** Insertion of [x] into a list in ascending order: [x] is put in front of
    the first element [y] for which [goes_first x y] holds. *)
Fixpoint insert_by (goes_first : Entry -> Entry -> bool) (x : Entry)
    (l : list Entry) : list Entry :=
  match l with
  | [] => [x]
  | y :: l' => if goes_first x y then x :: l else y :: insert_by goes_first x l'
  end.

Fixpoint sort_by (goes_first : Entry -> Entry -> bool) (l : list Entry)
    : list Entry :=
  match l with
  | [] => []
  | x :: l' => insert_by goes_first x (sort_by goes_first l')
  end.

(** An entry stays in front of the entries it is tied with. *)
Definition stable_sort (less : Entry -> Entry -> bool) : list Entry -> list Entry :=
  sort_by (fun x y => negb (less y x)).

(** An entry goes behind the entries it is tied with. *)
Definition tie_reversing_sort (less : Entry -> Entry -> bool)
    : list Entry -> list Entry :=
  sort_by (fun x y => less x y).

(** Any two different entries of [l] are ordered by [less] one way or the
    other: no two of them are tied. *)
Definition total_on (less : Entry -> Entry -> bool) (l : list Entry) : Prop :=
  forall a b, In a l -> In b l -> a = b \/ less a b = true \/ less b a = true.

(** ** A codec that meets the contract of [encoding/json] *)

(** The laws of [GoJSON] say nothing of the syntax of the text, so a codec
    with a text of its own shows that they can be met: a positive number is
    written bit by bit and closed by [H], a list is preceded by its
    length. *)
Fixpoint enc_pos (p : positive) : string :=
  match p with
  | xH => "H"
  | xO q => String "O"%char (enc_pos q)
  | xI q => String "I"%char (enc_pos q)
  end.

Fixpoint dec_pos (s : string) : option (positive * string) :=
  match s with
  | String "H"%char rest => Some (xH, rest)
  | String "O"%char s' =>
      match dec_pos s' with Some (q, rest) => Some (xO q, rest) | None => None end
  | String "I"%char s' =>
      match dec_pos s' with Some (q, rest) => Some (xI q, rest) | None => None end
  | _ => None
  end.

Definition enc_Z (z : Z) : string :=
  match z with
  | Z0 => "Z"
  | Zpos p => String "P"%char (enc_pos p)
  | Zneg p => String "N"%char (enc_pos p)
  end.

Definition dec_Z (s : string) : option (Z * string) :=
  match s with
  | String "Z"%char rest => Some (0, rest)
  | String "P"%char s' =>
      match dec_pos s' with Some (p, rest) => Some (Zpos p, rest) | None => None end
  | String "N"%char s' =>
      match dec_pos s' with Some (p, rest) => Some (Zneg p, rest) | None => None end
  | _ => None
  end.

Definition enc_bool (b : bool) : string := if b then "t" else "f".

Definition dec_bool (s : string) : option (bool * string) :=
  match s with
  | String "t"%char rest => Some (true, rest)
  | String "f"%char rest => Some (false, rest)
  | _ => None
  end.

Definition enc_entry (e : Entry) : string :=
  (enc_bool (Isuid e) ++ enc_bool (Isgid e) ++ enc_Z (Hostid e)
     ++ enc_Z (Nsid e) ++ enc_Z (Maprange e))%string.

Definition dec_entry (s : string) : option (Entry * string) :=
  match dec_bool s with
  | Some (u, s1) =>
    match dec_bool s1 with
    | Some (g, s2) =>
      match dec_Z s2 with
      | Some (h, s3) =>
        match dec_Z s3 with
        | Some (n, s4) =>
          match dec_Z s4 with
          | Some (r, rest) => Some (mkEntry u g h n r, rest)
          | None => None
          end
        | None => None
        end
      | None => None
      end
    | None => None
    end
  | None => None
  end.

Fixpoint enc_entries (l : list Entry) : string :=
  match l with
  | [] => ""
  | e :: l' => (enc_entry e ++ enc_entries l')%string
  end.

Fixpoint dec_entries (n : nat) (s : string) : option (list Entry * string) :=
  match n with
  | O => Some ([], s)
  | S n' =>
      match dec_entry s with
      | Some (e, s') =>
          match dec_entries n' s' with
          | Some (l, rest) => Some (e :: l, rest)
          | None => None
          end
      | None => None
      end
  end.

Definition ref_Marshal (l : list Entry) : result string :=
  Ok (enc_Z (Z.of_nat (List.length l)) ++ enc_entries l)%string.

Definition ref_Unmarshal (s : string) : result (list Entry) :=
  match dec_Z s with
  | Some (n, s') =>
      match dec_entries (Z.to_nat n) s' with
      | Some (l, EmptyString) => Ok l
      | _ => Err (Errorf "unexpected end of input")
      end
  | None => Err (Errorf "invalid character")
  end.

(** ** Mutations *)

(** The two mutating operations of a set, and their effect on it. *)
Inductive mutation : Type :=
| MAddSafe (i : Entry)
| MAppend (s : string).

Definition mutate (parse : string -> result Entry) (m : IdmapSet)
    (op : mutation) : IdmapSet * option error :=
  match op with
  | MAddSafe i => AddSafe m i
  | MAppend s => Append parse m s
  end.

(** One component of the loop of [doShiftIntoNs], followed on its own. *)
Fixpoint scan (how : string) (tag : Entry -> bool) (id : Z)
    (es : list Entry) (acc : Z) : Z :=
  match es with
  | [] => acc
  | e :: rest =>
      scan how tag id rest
        (if tag e && (acc =? -1) then
           match shift_how how e id with Ok v => v | Err _ => acc end
         else acc)
  end.

(** ** Two readings of the shifting scan *)

(** The scan as the specification words it: the first entry in stored order
    that carries the tag and whose own shift succeeds gives the result; -1
    when there is none. *)
Fixpoint first_shift (how : string) (tag : Entry -> bool) (id : Z)
    (es : list Entry) : Z :=
  match es with
  | [] => -1
  | e :: rest =>
      if tag e then
        match shift_how how e id with
        | Ok v => v
        | Err _ => first_shift how tag id rest
        end
      else first_shift how tag id rest
  end.

(** The same scan, with a successful shift to -1 passed over. *)
Fixpoint first_final_shift (how : string) (tag : Entry -> bool) (id : Z)
    (es : list Entry) : Z :=
  match es with
  | [] => -1
  | e :: rest =>
      if tag e then
        match shift_how how e id with
        | Ok v => if v =? -1 then first_final_shift how tag id rest else v
        | Err _ => first_final_shift how tag id rest
        end
      else first_final_shift how tag id rest
  end.

(** Host and namespace IDs of the entry are 64-bit values that are not
    negative. *)
Definition nonneg_ids (e : Entry) : Prop :=
  0 <= Hostid e <= max_int64 /\ 0 <= Nsid e <= max_int64.

(** ** Derived views used in the statements *)

(** [x] lies in the namespace range of [e]. *)
Definition covers_ns (e : Entry) (x : Z) : bool :=
  (Nsid e <=? x) && (x <=? range_last (Nsid e) (Maprange e)).

(** Number of entries of [l] whose namespace range holds [x]. *)
Definition ns_cover_count (l : list Entry) (x : Z) : nat :=
  List.length (filter (fun e => covers_ns e x) l).

(** No entry of [l] has a host range that meets, on a shared tag, the host
    range of an entry further down the list. *)
Fixpoint hosts_disjoint (l : list Entry) : bool :=
  match l with
  | [] => true
  | e :: rest =>
      forallb (fun e' => negb (Entry_HostidsIntersect e e')) rest
      && hosts_disjoint rest
  end.

(** The same for the namespace ranges. *)
Fixpoint ns_disjoint (l : list Entry) : bool :=
  match l with
  | [] => true
  | e :: rest =>
      forallb (fun e' => negb (Entry_Intersects e e')) rest
      && ns_disjoint rest
  end.

(** The invariant as the specification states it: no two entries with the
    same tag combination have overlapping namespace ranges, and no two
    entries have overlapping host ranges on a shared tag. *)
Definition same_tags (a b : Entry) : bool :=
  Bool.eqb (Isuid a) (Isuid b) && Bool.eqb (Isgid a) (Isgid b).

Fixpoint ns_disjoint_same_tags (l : list Entry) : bool :=
  match l with
  | [] => true
  | e :: rest =>
      forallb
        (fun e' =>
           negb (same_tags e e'
                 && ranges_overlap (Nsid e) (Maprange e) (Nsid e') (Maprange e')))
        rest
      && ns_disjoint_same_tags rest
  end.

Definition stated_invariant (l : list Entry) : bool :=
  ns_disjoint_same_tags l && hosts_disjoint l.

(** The 32-bit ID space of the kernel's ID maps. *)
Definition id_space : Z := 2 ^ 32.

(** A range that is not empty and lies in the ID space on both sides. *)
Definition entry_ok (e : Entry) : Prop :=
  0 <= Hostid e /\ 0 <= Nsid e /\ 0 < Maprange e
  /\ Hostid e + Maprange e <= id_space /\ Nsid e + Maprange e <= id_space.

(** What a mutation is given: [AddSafe] an entry in the ID space that
    intersects at most one entry of the set, [Append] a text that parses, if
    it does, to an entry in the ID space. *)
Definition mutation_ok (parse : string -> result Entry) (m : IdmapSet)
    (op : mutation) : Prop :=
  match op with
  | MAddSafe i =>
      entry_ok i
      /\ (List.length (filter (fun e => Entry_Intersects e i) (Idmap m)) <= 1)%nat
  | MAppend s => forall e, parse s = Ok e -> entry_ok e
  end.

(** What the loop of [AddSafe] puts in the place of an entry [e] that
    intersects the new entry [i]. *)
Definition split_pieces (e i : Entry) : list Entry :=
  let lower := {| Isuid := Isuid e; Isgid := Isgid e;
                  Hostid := Hostid e; Nsid := Nsid e;
                  Maprange := sub64 (Nsid i) (Nsid e) |} in
  let upper := {| Isuid := Isuid e; Isgid := Isgid e;
                  Hostid := add64 (add64 (Hostid e) (Maprange lower))
                                  (Maprange i);
                  Nsid := add64 (Nsid i) (Maprange i);
                  Maprange := sub64 (sub64 (Maprange e) (Maprange i))
                                    (Maprange lower) |} in
  (if 0 <? Maprange lower then [lower] else [])
    ++ [i] ++ (if 0 <? Maprange upper then [upper] else []).

(** [p] has the tags of [e] and a namespace range inside the one of [e]. *)
Definition inside (p e : Entry) : Prop :=
  Isuid p = Isuid e /\ Isgid p = Isgid e /\ Nsid e <= Nsid p
  /\ Nsid p + Maprange p <= Nsid e + Maprange e.

(** ** The remaining operations of the set *)

(** What [AddSafe] leaves on success, entry by entry: an entry that
    intersects the new one gives way to its pieces, the others stay, and the
    new entry is added at the end when no entry intersects it. *)
Definition AddSafe_result (m : list Entry) (i : Entry) : list Entry :=
  flat_map (fun e => if Entry_Intersects e i then split_pieces e i else [e]) m
    ++ (if existsb (fun e => Entry_Intersects e i) m then [] else [i]).

(** The entries that the loop of [expandSortIdmap] appends for one entry. *)
Definition expand_entry (entry : Entry) : list Entry :=
  if Isuid entry && Isgid entry then
    [mkEntry true false (Hostid entry) (Nsid entry) (Maprange entry);
     mkEntry false true (Hostid entry) (Nsid entry) (Maprange entry)]
  else [entry].

(** The namespace ID [x] of the kind [(u, g)] lies in the range [r]. *)
Definition in_range (u g : bool) (x : Z) (r : IDRange) : Prop :=
  rIsuid r = u /\ rIsgid r = g /\ Startid r <= x <= Endid r.

(** The namespace ID [x] of the kind [(u, g)] lies in the entry [e]. *)
Definition in_entry (u g : bool) (x : Z) (e : Entry) : Prop :=
  Isuid e = u /\ Isgid e = g /\ Nsid e <= x < Nsid e + Maprange e.

(** A range that is not empty and lies in the ID space. *)
Definition range_ok (r : IDRange) : Prop :=
  0 <= Startid r <= Endid r /\ Endid r < id_space.

(** ** Usable and ToLxcString *)

Section WithEntryMethods.
(** [Entry.Usable] and [Entry.ToLxcString] are part of the entry file, and
    [util.ValueInSlice] lives outside this package. *)
Variable Entry_Usable : Entry -> option error.
Variable Entry_ToLxcString : Entry -> list string.
Variable util_ValueInSlice : string -> list string -> bool.

Fixpoint Usable_loop (es : list Entry) : option error :=
  match es with
  | [] => None
  | e :: rest =>
      match Entry_Usable e with
      | Some err => Some err
      | None => Usable_loop rest
      end
  end.

Definition Usable (m : IdmapSet) : option error := Usable_loop (Idmap m).

(** The inner loop of [ToLxcString], over the lines of one entry. *)
Definition ToLxcString_entry (lines ls : list string) : list string :=
  fold_left
    (fun lines l =>
       if negb (util_ValueInSlice l lines) then lines ++ [l] else lines)
    ls lines.

(** [ToLxcString]; the nil slice it returns when there is no line is the
    empty list. *)
Definition ToLxcString (m : IdmapSet) : list string :=
  fold_left (fun lines e => ToLxcString_entry lines (Entry_ToLxcString e))
            (Idmap m) [].

End WithEntryMethods.

(** ** The sorting interface *)

Definition Len (m : IdmapSet) : Z := Z.of_nat (List.length (Idmap m)).

(** [s[i]], with the run-time panic of an index out of range as [None]. *)
Definition at_index (s : list Entry) (i : Z) : option Entry :=
  if (0 <=? i) && (i <? Z.of_nat (List.length s))
  then nth_error s (Z.to_nat i) else None.

(** [s[n] = v] for an index in range. *)
Fixpoint set_index (n : nat) (v : Entry) (s : list Entry) : list Entry :=
  match s, n with
  | [], _ => []
  | _ :: rest, O => v :: rest
  | x :: rest, S n' => x :: set_index n' v rest
  end.

(** [Swap], of [IdmapSet] and of [ByHostID] alike: both operands on the
    right are read before either element is assigned. *)
Definition Swap (m : IdmapSet) (i j : Z) : option IdmapSet :=
  match at_index (Idmap m) j, at_index (Idmap m) i with
  | Some ej, Some ei =>
      Some {| Idmap := set_index (Z.to_nat j) ei
                         (set_index (Z.to_nat i) ej (Idmap m)) |}
  | _, _ => None
  end.

(** ** [sort.Sort] as Go implements it *)

(** The contract above is all that [Equals] and [ValidRanges] rely on. What
    happens to tied entries is decided by the algorithm itself: since Go
    1.19, [sort.Sort] is a pattern-defeating quicksort ([pdqsort] in
    sort/zsortinterface.go). It is followed here function by function, on
    the methods [Len], [Less] and [Swap] of the set, for inputs of fewer than
    50 entries. Three parts are left out, and a run that needs one of them
    has the outcome [Unmodelled]: what [choosePivot] and
    [partialInsertionSort] only do on 50 entries or more, [breakPatterns]
    (its pseudo-random generator differs between Go releases), and
    [heapSort], which is only reached after [breakPatterns]. *)

(** [data.Less(i, j)] and [data.Swap(i, j)]; the indices that [sort.Sort]
    passes are always in range. *)
Definition data_Less (less : Entry -> Entry -> bool) (s : list Entry)
    (i j : nat) : bool :=
  match nth_error s i, nth_error s j with
  | Some x, Some y => less x y
  | _, _ => false
  end.

Definition data_Swap (s : list Entry) (i j : nat) : list Entry :=
  match nth_error s j, nth_error s i with
  | Some ej, Some ei => set_index j ei (set_index i ej s)
  | _, _ => s
  end.

Inductive sortedHint : Type :=
| unknownHint
| increasingHint
| decreasingHint.

Inductive outcome : Type :=
| Sorted (s : list Entry)
| Unmodelled
| OutOfFuel.

Section Pdqsort.
Variable less : Entry -> Entry -> bool.
Local Open Scope nat_scope.

(** [for j := i; j > a && data.Less(j, j-1); j-- { data.Swap(j, j-1) }] *)
Fixpoint insertionSort_inner (a j : nat) (s : list Entry) : list Entry :=
  match j with
  | O => s
  | S j' =>
      if (a <? j) && data_Less less s j j'
      then insertionSort_inner a j' (data_Swap s j j')
      else s
  end.

(** [for i := a + 1; i < b; i++], with [n] iterations left. *)
Fixpoint insertionSort_outer (n i a : nat) (s : list Entry) : list Entry :=
  match n with
  | O => s
  | S n' => insertionSort_outer n' (S i) a (insertionSort_inner a i s)
  end.

Definition insertionSort (s : list Entry) (a b : nat) : list Entry :=
  insertionSort_outer (b - (a + 1)) (a + 1) a s.

(** [order2] and [median] work on indices and count the swaps they would
    make; the data is not touched. *)
Definition order2 (s : list Entry) (a b swaps : nat) : nat * nat * nat :=
  if data_Less less s b a then (b, a, S swaps) else (a, b, swaps).

Definition median (s : list Entry) (a b c swaps : nat) : nat * nat :=
  let '(a, b, swaps) := order2 s a b swaps in
  let '(b, c, swaps) := order2 s b c swaps in
  let '(a, b, swaps) := order2 s a b swaps in
  (b, swaps).

(** [choosePivot] on fewer than 50 entries (no Tukey ninther). *)
Definition choosePivot (s : list Entry) (a b : nat) : nat * sortedHint :=
  let l := b - a in
  let i := a + l / 4 * 1 in
  let j := a + l / 4 * 2 in
  let k := a + l / 4 * 3 in
  let '(j, swaps) := if (8 <=? l) then median s i j k 0 else (j, O) in
  if (swaps =? 0) then (j, increasingHint)
  else if (swaps =? 4 * 3) then (j, decreasingHint)
  else (j, unknownHint).

(** [for i < j { data.Swap(i, j); i++; j-- }] *)
Fixpoint reverseRange_loop (n i j : nat) (s : list Entry) : list Entry :=
  match n with
  | O => s
  | S n' =>
      if (i <? j) then reverseRange_loop n' (S i) (j - 1) (data_Swap s i j)
      else s
  end.

Definition reverseRange (s : list Entry) (a b : nat) : list Entry :=
  reverseRange_loop (b - a) a (b - 1) s.

(** [for i < b && !data.Less(i, i-1) { i++ }] *)
Fixpoint ordered_run (n i b : nat) (s : list Entry) : nat :=
  match n with
  | O => i
  | S n' =>
      if (i <? b) && negb (data_Less less s i (i - 1))
      then ordered_run n' (S i) b s
      else i
  end.

(** [partialInsertionSort] on fewer than 50 entries: it finds out whether
    the range is in order already, and shifts nothing. *)
Definition partialInsertionSort (s : list Entry) (a b : nat) : bool :=
  (ordered_run (b - a) (a + 1) b s =? b).

(** [for i <= j && data.Less(i, a) { i++ }] *)
Fixpoint skip_less (n i j a : nat) (s : list Entry) : nat :=
  match n with
  | O => i
  | S n' =>
      if (i <=? j) && data_Less less s i a then skip_less n' (S i) j a s
      else i
  end.

(** [for i <= j && !data.Less(j, a) { j-- }] *)
Fixpoint skip_not_less (n i j a : nat) (s : list Entry) : nat :=
  match n with
  | O => j
  | S n' =>
      if (i <=? j) && negb (data_Less less s j a)
      then skip_not_less n' i (j - 1) a s
      else j
  end.

(** The main loop of [partition]; it returns the data and [j]. *)
Fixpoint partition_loop (n i j a b : nat) (s : list Entry)
    : list Entry * nat :=
  match n with
  | O => (s, j)
  | S n' =>
      let i := skip_less b i j a s in
      let j := skip_not_less b i j a s in
      if (j <? i) then (s, j)
      else partition_loop n' (S i) (j - 1) a b (data_Swap s i j)
  end.

Definition partition (s : list Entry) (a b pivot : nat)
    : list Entry * nat * bool :=
  let s := data_Swap s a pivot in
  let i := skip_less b (a + 1) (b - 1) a s in
  let j := skip_not_less b i (b - 1) a s in
  if (j <? i) then (data_Swap s j a, j, true)
  else
    let s := data_Swap s i j in
    let '(s, j) := partition_loop b (S i) (j - 1) a b s in
    (data_Swap s j a, j, false).

(** [for i <= j && !data.Less(a, i) { i++ }] *)
Fixpoint skip_not_greater (n i j a : nat) (s : list Entry) : nat :=
  match n with
  | O => i
  | S n' =>
      if (i <=? j) && negb (data_Less less s a i)
      then skip_not_greater n' (S i) j a s
      else i
  end.

(** [for i <= j && data.Less(a, j) { j-- }] *)
Fixpoint skip_greater (n i j a : nat) (s : list Entry) : nat :=
  match n with
  | O => j
  | S n' =>
      if (i <=? j) && data_Less less s a j
      then skip_greater n' i (j - 1) a s
      else j
  end.

(** The loop of [partitionEqual]; it returns the data and [i]. *)
Fixpoint partitionEqual_loop (n i j a b : nat) (s : list Entry)
    : list Entry * nat :=
  match n with
  | O => (s, i)
  | S n' =>
      let i := skip_not_greater b i j a s in
      let j := skip_greater b i j a s in
      if (j <? i) then (s, i)
      else partitionEqual_loop n' (S i) (j - 1) a b (data_Swap s i j)
  end.

Definition partitionEqual (s : list Entry) (a b pivot : nat)
    : list Entry * nat :=
  partitionEqual_loop b (a + 1) (b - 1) a b (data_Swap s a pivot).

(** [pdqsort]: one turn of its [for] loop per unit of fuel; the recursive
    call on the shorter side starts with both flags set, the loop goes on
    with the longer side. *)
Fixpoint pdqsort (fuel : nat) (s : list Entry) (a b limit : nat)
    (wasBalanced wasPartitioned : bool) : outcome :=
  match fuel with
  | O => OutOfFuel
  | S fuel' =>
      let length := b - a in
      if (length <=? 12) then Sorted (insertionSort s a b)
      else if (limit =? 0) then Unmodelled
      else if negb wasBalanced then Unmodelled
      else if (50 <=? length) then Unmodelled
      else
        let '(pivot, hint) := choosePivot s a b in
        let '(s, pivot, hint) :=
          match hint with
          | decreasingHint =>
              (reverseRange s a b, (b - 1) - (pivot - a), increasingHint)
          | _ => (s, pivot, hint)
          end in
        let likely_sorted :=
          match hint with
          | increasingHint => wasBalanced && wasPartitioned
          | _ => false
          end in
        if likely_sorted && partialInsertionSort s a b then Sorted s
        else if (0 <? a) && negb (data_Less less s (a - 1) pivot) then
          let '(s, mid) := partitionEqual s a b pivot in
          pdqsort fuel' s mid b limit wasBalanced wasPartitioned
        else
          let '(s, mid, alreadyPartitioned) := partition s a b pivot in
          let leftLen := mid - a in
          let rightLen := b - mid in
          let balanceThreshold := length / 8 in
          if (leftLen <? rightLen) then
            match pdqsort fuel' s a mid limit true true with
            | Sorted s' =>
                pdqsort fuel' s' (mid + 1) b limit
                        (balanceThreshold <=? leftLen) alreadyPartitioned
            | other => other
            end
          else
            match pdqsort fuel' s (mid + 1) b limit true true with
            | Sorted s' =>
                pdqsort fuel' s' a mid limit
                        (balanceThreshold <=? rightLen) alreadyPartitioned
            | other => other
            end
  end.

(** [bits.Len]: the number of bits of [n]. *)
Definition bits_Len (n : nat) : nat :=
  match n with O => O | _ => S (Nat.log2 n) end.

(** [sort.Sort]. *)
Definition Sort (s : list Entry) : outcome :=
  let n := List.length s in
  if (n <=? 1) then Sorted s
  else pdqsort (S n) s 0 n (bits_Len n) true true.

End Pdqsort.

(** Insertion of [x] at the end of a list in ascending order, as
    [insertionSort] does it: [x] moves towards the front for as long as it is
    less than its neighbour. The list is held last entry first. *)
Fixpoint insert_back_rev (less : Entry -> Entry -> bool) (x : Entry)
    (r : list Entry) : list Entry :=
  match r with
  | [] => [x]
  | y :: r' => if less x y then y :: insert_back_rev less x r' else x :: r
  end.

Definition insertion_sort_rev (less : Entry -> Entry -> bool)
    (l r : list Entry) : list Entry :=
  fold_left (fun r x => insert_back_rev less x r) l r.

(** ** [encoding/json] on a slice of entries *)

(** The contract [GoJSON] leaves the text open. What [json.Marshal] writes
    for the field [Idmap] is fixed by the package: a nil slice is written
    [null], any other slice as an array, [[]] when it has no element; an
    entry is written as an object of its five fields in the order of their
    declaration, with no white space, a flag as [true] or [false] and an
    integer in decimal. The declaration of [Entry] is not part of set.go;
    the keys are the names by which set.go reads the fields.
    [json.Unmarshal] is followed on the texts that [json.Marshal] writes for
    such a slice, where it gives the slice back, leaving the slice nil for
    [null]. It accepts other texts too (white space, keys in another order);
    they are outside this model, which answers them with an error. *)

(** A slice as Go holds it: nil, or elements. The operations of set.go see
    the elements only, and [IdmapSet] keeps them as a list; [json.Marshal]
    alone tells the nil slice from an empty one. *)
Definition slice : Type := option (list Entry).

Definition elements (s : slice) : list Entry :=
  match s with None => [] | Some l => l end.

Definition dquote : string := String "034"%char EmptyString.

Definition json_field (first : bool) (name : string) : string :=
  ((if first then "{" else ",") ++ dquote ++ name ++ dquote ++ ":")%string.

Definition json_bool (b : bool) : string := if b then "true" else "false".

Definition json_int (z : Z) : string := NilZero.string_of_int (Z.to_int z).

Definition json_Entry (e : Entry) : string :=
  (json_field true "Isuid" ++ json_bool (Isuid e)
   ++ json_field false "Isgid" ++ json_bool (Isgid e)
   ++ json_field false "Hostid" ++ json_int (Hostid e)
   ++ json_field false "Nsid" ++ json_int (Nsid e)
   ++ json_field false "Maprange" ++ json_int (Maprange e) ++ "}")%string.

(** The elements after the first one, and the closing bracket. *)
Fixpoint json_tail (l : list Entry) : string :=
  match l with
  | [] => "]"
  | e :: l' => ("," ++ json_Entry e ++ json_tail l')%string
  end.

Definition go_json_Marshal (v : slice) : result string :=
  match v with
  | None => Ok "null"%string
  | Some [] => Ok "[]"%string
  | Some (e :: l) => Ok ("[" ++ json_Entry e ++ json_tail l)%string
  end.

(** [s] without its prefix [p]. *)
Fixpoint take_prefix (p s : string) : option string :=
  match p with
  | EmptyString => Some s
  | String c p' =>
      match s with
      | String d s' => if Ascii.eqb c d then take_prefix p' s' else None
      | EmptyString => None
      end
  end.

Definition json_dec_bool (s : string) : option (bool * string) :=
  match take_prefix "true" s with
  | Some r => Some (true, r)
  | None =>
      match take_prefix "false" s with
      | Some r => Some (false, r)
      | None => None
      end
  end.

Definition is_int_char (c : ascii) : bool :=
  Ascii.eqb c "-"
  || (Nat.leb 48 (nat_of_ascii c) && Nat.leb (nat_of_ascii c) 57).

(** The sign and digits that [s] starts with, and the rest of [s]. *)
Fixpoint span_int (s : string) : string * string :=
  match s with
  | EmptyString => (EmptyString, EmptyString)
  | String c s' =>
      if is_int_char c
      then let (d, r) := span_int s' in (String c d, r)
      else (EmptyString, s)
  end.

Definition json_dec_int (s : string) : option (Z * string) :=
  let (d, r) := span_int s in
  match NilZero.int_of_string d with
  | Some i => Some (Z.of_int i, r)
  | None => None
  end.

Definition json_dec_field {A : Type} (first : bool) (name : string)
    (dec : string -> option (A * string)) (s : string)
    : option (A * string) :=
  match take_prefix (json_field first name) s with
  | Some r => dec r
  | None => None
  end.

Definition json_dec_Entry (s : string) : option (Entry * string) :=
  match json_dec_field true "Isuid" json_dec_bool s with
  | Some (u, s1) =>
    match json_dec_field false "Isgid" json_dec_bool s1 with
    | Some (g, s2) =>
      match json_dec_field false "Hostid" json_dec_int s2 with
      | Some (h, s3) =>
        match json_dec_field false "Nsid" json_dec_int s3 with
        | Some (n, s4) =>
          match json_dec_field false "Maprange" json_dec_int s4 with
          | Some (r, s5) =>
            match take_prefix "}" s5 with
            | Some rest => Some (mkEntry u g h n r, rest)
            | None => None
            end
          | None => None
          end
        | None => None
        end
      | None => None
      end
    | None => None
    end
  | None => None
  end.

Fixpoint json_dec_tail (fuel : nat) (s : string) : option (list Entry) :=
  match fuel with
  | O => None
  | S fuel' =>
      match s with
      | String "]"%char EmptyString => Some []
      | String ","%char s' =>
          match json_dec_Entry s' with
          | Some (e, r) => option_map (cons e) (json_dec_tail fuel' r)
          | None => None
          end
      | _ => None
      end
  end.

Definition json_parse (s : string) : option slice :=
  if String.eqb s "null" then Some None
  else if String.eqb s "[]" then Some (Some [])
  else
    match s with
    | String "["%char s' =>
        match json_dec_Entry s' with
        | Some (e, r) =>
            option_map (fun l => Some (e :: l))
                       (json_dec_tail (String.length r) r)
        | None => None
        end
    | _ => None
    end.

(** A text is taken for a text of [json.Marshal] only if writing the parsed
    slice gives the very same text. *)
Definition go_json_Unmarshal (s : string) : result (list Entry) :=
  match json_parse s with
  | Some v =>
      match go_json_Marshal v with
      | Ok s' =>
          if String.eqb s' s then Ok (elements v)
          else Err (Errorf "json: not the encoding of a slice of entries")
      | Err err => Err err
      end
  | None => Err (Errorf "json: not the encoding of a slice of entries")
  end.

(** [JSONMarshal] of a set whose field [Idmap] holds the slice [idmap]. *)
Definition JSONMarshal_slice (idmap : slice) : string * option error :=
  match go_json_Marshal idmap with
  | Err err => (EmptyString, Some err)
  | Ok idmapBytes => (idmapBytes, None)
  end.

(** Every character of [s] is a sign or a digit; [s] does not go on with a
    sign or a digit. *)
Fixpoint all_int_chars (s : string) : bool :=
  match s with
  | EmptyString => true
  | String c s' => is_int_char c && all_int_chars s'
  end.

Definition starts_clean (s : string) : bool :=
  match s with
  | EmptyString => true
  | String c _ => negb (is_int_char c)
  end.

(** * Properties *)

(** ** 64-bit arithmetic without overflow *)

Lemma wrap64_id (z : Z) : in_int64 z -> wrap64 z = z.
Proof.
  unfold in_int64, min_int64, max_int64, wrap64. intros H.
  rewrite Z.mod_small; lia.
Qed.

Lemma add64_id (a b : Z) : in_int64 (a + b) -> add64 a b = a + b.
Proof. apply wrap64_id. Qed.

Lemma sub64_id (a b : Z) : in_int64 (a - b) -> sub64 a b = a - b.
Proof. apply wrap64_id. Qed.

Lemma range_last_id (a r : Z) :
  in_int64 (a + r) -> in_int64 (a + r - 1) -> range_last a r = a + r - 1.
Proof.
  intros H1 H2. unfold range_last. rewrite (add64_id _ _ H1).
  apply sub64_id. exact H2.
Qed.

(** ** AddSafe on the specification's example *)

(** C4: from the set holding only {uid, host 0, ns 0, range 100}, AddSafe of
    {uid, host 200, ns 40, range 10} succeeds and leaves exactly
    {uid,0,0,40}, {uid,200,40,10}, {uid,50,50,50} in that order; every
    namespace ID of [0,99] is then covered by exactly one entry and no other
    ID is covered, and the host ranges are pairwise disjoint. *)
Theorem AddSafe_splits_the_example :
  AddSafe (mkIdmapSet [uidE 0 0 100]) (uidE 200 40 10)
  = (mkIdmapSet [uidE 0 0 40; uidE 200 40 10; uidE 50 50 50], None)
  /\ (forall x,
        ns_cover_count
          (Idmap (fst (AddSafe (mkIdmapSet [uidE 0 0 100]) (uidE 200 40 10)))) x
        = if (0 <=? x) && (x <=? 99) then 1%nat else 0%nat)
  /\ hosts_disjoint
       (Idmap (fst (AddSafe (mkIdmapSet [uidE 0 0 100]) (uidE 200 40 10))))
     = true.
Proof.
  assert (E : AddSafe (mkIdmapSet [uidE 0 0 100]) (uidE 200 40 10)
              = (mkIdmapSet [uidE 0 0 40; uidE 200 40 10; uidE 50 50 50], None))
    by (vm_compute; reflexivity).
  rewrite E. split; [reflexivity | split].
  - intros x. cbn [fst Idmap]. unfold ns_cover_count, covers_ns.
    cbn [filter Nsid Maprange uidE].
    change (range_last 0 40) with 39. change (range_last 40 10) with 49.
    change (range_last 50 50) with 99.
    destruct (Z.leb_spec 0 x), (Z.leb_spec x 39), (Z.leb_spec 40 x),
      (Z.leb_spec x 49), (Z.leb_spec 50 x), (Z.leb_spec x 99);
      cbn; try reflexivity; lia.
  - vm_compute. reflexivity.
Qed.

(** ** Failed mutations *)

Lemma AddSafe_loop_Err (i : Entry) (es : list Entry) :
  forall res added err,
    AddSafe_loop i es res added = Err err ->
    err = ErrHostIDIsSubID
    /\ exists e, In e es /\ Entry_Intersects e i = true
                 /\ Entry_HostidsIntersect e i = true.
Proof.
  induction es as [|e rest IH]; intros res added err H; cbn in H.
  - discriminate.
  - destruct (Entry_Intersects e i) eqn:EI; cbn in H.
    + destruct (Entry_HostidsIntersect e i) eqn:EH.
      * inversion H; subst. split; [reflexivity|].
        exists e. repeat split; auto. now left.
      * apply IH in H. destruct H as [-> [e' [Hin [H1 H2]]]].
        split; [reflexivity|]. exists e'. repeat split; auto. now right.
    + apply IH in H. destruct H as [-> [e' [Hin [H1 H2]]]].
      split; [reflexivity|]. exists e'. repeat split; auto. now right.
Qed.

Lemma AddSafe_loop_collision (i : Entry) (es : list Entry) :
  forall res added e,
    In e es -> Entry_Intersects e i = true ->
    Entry_HostidsIntersect e i = true ->
    AddSafe_loop i es res added = Err ErrHostIDIsSubID.
Proof.
  induction es as [|e0 rest IH]; intros res added e Hin HI HH.
  - destruct Hin.
  - cbn. destruct (Entry_Intersects e0 i) eqn:EI; cbn.
    + destruct (Entry_HostidsIntersect e0 i) eqn:EH; [reflexivity|].
      destruct Hin as [->|Hin]; [congruence|]. eapply IH; eauto.
    + destruct Hin as [->|Hin]; [congruence|]. eapply IH; eauto.
Qed.

(** A collision on the host IDs of an intersecting entry is the one reason
    for which [AddSafe] fails, and it always makes it fail. *)
Lemma AddSafe_collision (m : IdmapSet) (i e : Entry) :
  In e (Idmap m) -> Entry_Intersects e i = true ->
  Entry_HostidsIntersect e i = true ->
  AddSafe m i = (m, Some ErrHostIDIsSubID).
Proof.
  intros Hin HI HH. unfold AddSafe.
  now rewrite (AddSafe_loop_collision i (Idmap m) [] false e Hin HI HH).
Qed.

(** C3: when AddSafe returns an error, the error is ErrHostIDIsSubID, some
    entry of the set intersects the new entry on both the namespace and the
    host side, and the set is as it was before the call; when Append returns
    an error, it is either the parse error or the conflict error raised
    because the parsed entry intersects the set, and the set is as it was
    before the call. *)
Theorem failed_mutation_leaves_set_unchanged
    (parse : string -> result Entry) (m : IdmapSet) (op : mutation)
    (err : error) :
  snd (mutate parse m op) = Some err ->
  fst (mutate parse m op) = m
  /\ match op with
     | MAddSafe i =>
         err = ErrHostIDIsSubID
         /\ exists e, In e (Idmap m) /\ Entry_Intersects e i = true
                      /\ Entry_HostidsIntersect e i = true
     | MAppend s =>
         parse s = Err err
         \/ exists e, parse s = Ok e /\ Intersects m e = true
                      /\ err = Errorf "Conflicting id mapping"
     end.
Proof.
  destruct op as [i|s]; cbn [mutate].
  - unfold AddSafe.
    destruct (AddSafe_loop i (Idmap m) [] false) as [[res added]|err'] eqn:E;
      cbn; intros H; [discriminate|].
    inversion H; subst err'. split; [reflexivity|].
    eapply AddSafe_loop_Err; eauto.
  - unfold Append. destruct (parse s) as [e|err'] eqn:P; cbn.
    + destruct (Intersects m e) eqn:I; cbn; intros H; [|discriminate].
      inversion H; subst. split; [reflexivity|]. right. exists e. auto.
    + intros H. inversion H; subst. split; [reflexivity|]. now left.
Qed.

Lemma failed_mutation_leaves_set_unchanged_witness :
  let parse := fun _ : string => Err (Errorf "Bad idmap") in
  let m := mkIdmapSet [uidE 0 0 100; gidE 0 0 100] in
  snd (mutate parse m (MAddSafe (uidE 50 40 10))) = Some ErrHostIDIsSubID
  /\ fst (mutate parse m (MAddSafe (uidE 50 40 10))) = m.
Proof.
  intros parse m. split; [reflexivity|].
  apply (failed_mutation_leaves_set_unchanged parse m
           (MAddSafe (uidE 50 40 10)) ErrHostIDIsSubID).
  reflexivity.
Defined.

(** ** AddSafe when several entries intersect the new one *)

(** C2: with the two entries {uid, host 0, ns 0, range 10} and
    {uid, host 100, ns 10, range 10} in the set, AddSafe of
    {uid, host 1000, ns 5, range 10}, which intersects both, succeeds and
    leaves the new entry in the set twice, once for each entry it
    intersects. *)
Theorem AddSafe_inserts_once_per_intersecting_entry :
  let m := mkIdmapSet [uidE 0 0 10; uidE 100 10 10] in
  let i := uidE 1000 5 10 in
  AddSafe m i = (mkIdmapSet [uidE 0 0 5; i; i; uidE 105 15 5], None)
  /\ List.length (filter (Entry_eqb i) (Idmap (fst (AddSafe m i)))) = 2%nat.
Proof. split; vm_compute; reflexivity. Qed.

(** ** The shifting scan *)

Lemma doShiftIntoNs_loop_scan (how : string) (uid gid : Z) (es : list Entry) :
  forall u g,
    doShiftIntoNs_loop how uid gid es u g
    = (scan how Isuid uid es u, scan how Isgid gid es g).
Proof.
  induction es as [|e rest IH]; intros u g; cbn; [reflexivity|].
  now rewrite IH.
Qed.

Lemma scan_settled (how : string) (tag : Entry -> bool) (id : Z)
    (es : list Entry) (acc : Z) :
  acc <> -1 -> scan how tag id es acc = acc.
Proof.
  induction es as [|e rest IH]; intros H; cbn; [reflexivity|].
  destruct (Z.eqb_spec acc (-1)) as [E|_]; [contradiction|].
  rewrite andb_false_r. now apply IH.
Qed.

Lemma scan_first_final (how : string) (tag : Entry -> bool) (id : Z)
    (es : list Entry) :
  scan how tag id es (-1) = first_final_shift how tag id es.
Proof.
  induction es as [|e rest IH]; cbn; [reflexivity|].
  destruct (tag e); cbn; [|exact IH].
  destruct (shift_how how e id) as [v|err]; [|exact IH].
  destruct (Z.eqb_spec v (-1)) as [->|Hv]; [exact IH|].
  now apply scan_settled.
Qed.

Lemma doShiftIntoNs_first_final (m : IdmapSet) (uid gid : Z) (how : string) :
  doShiftIntoNs m uid gid how
  = (first_final_shift how Isuid uid (Idmap m),
     first_final_shift how Isgid gid (Idmap m)).
Proof.
  unfold doShiftIntoNs. rewrite doShiftIntoNs_loop_scan.
  now rewrite !scan_first_final.
Qed.

(** Entries without the tag play no part in the scan for that tag. *)
Lemma first_final_shift_filter (how : string) (tag : Entry -> bool) (id : Z)
    (es : list Entry) :
  first_final_shift how tag id es = first_final_shift how tag id (filter tag es).
Proof.
  induction es as [|e rest IH]; cbn; [reflexivity|].
  destruct (tag e) eqn:T; cbn; [rewrite T, IH; reflexivity | exact IH].
Qed.

(** A shift of an ID that is not negative through an entry whose IDs are not
    negative never gives -1. *)
Lemma shift_nonneg_not_sentinel (how : string) (e : Entry) (id v : Z) :
  how = "in"%string \/ how = "out"%string ->
  nonneg_ids e -> shift_how how e id = Ok v -> v <> -1.
Proof.
  intros Hhow [[Hh1 Hh2] [Hn1 Hn2]] H.
  assert (RL : forall a r, range_last a r <= max_int64).
  { intros a r. unfold range_last, sub64, wrap64, max_int64.
    pose proof (Z.mod_pos_bound (add64 a r - 1 + 2 ^ 63) (2 ^ 64)). lia. }
  assert (W : forall a d, 0 <= a <= max_int64 -> 0 <= d <= max_int64 ->
                          add64 a d <> -1).
  { intros a d Ha Hd. unfold add64, wrap64, max_int64 in *.
    destruct (Z_lt_le_dec (a + d) (2 ^ 63)) as [L|L].
    - rewrite Z.mod_small; lia.
    - replace (a + d + 2 ^ 63) with ((a + d - 2 ^ 63) + 1 * 2 ^ 64) by lia.
      rewrite Z.mod_add by lia. rewrite Z.mod_small; lia. }
  unfold shift_how in H.
  destruct Hhow as [-> | ->]; cbn [String.eqb Ascii.eqb Bool.eqb] in H.
  - unfold Entry_shiftIntoNS in H.
    destruct (Z.leb_spec (Hostid e) id) as [L1|]; [|discriminate].
    destruct (Z.leb_spec id (range_last (Hostid e) (Maprange e))) as [L2|];
      [|discriminate].
    cbn in H. inversion H; subst v. pose proof (RL (Hostid e) (Maprange e)).
    apply W; [lia|]. rewrite sub64_id; unfold in_int64, min_int64, max_int64 in *; lia.
  - unfold Entry_shiftFromNS in H.
    destruct (Z.leb_spec (Nsid e) id) as [L1|]; [|discriminate].
    destruct (Z.leb_spec id (range_last (Nsid e) (Maprange e))) as [L2|];
      [|discriminate].
    cbn in H. inversion H; subst v. pose proof (RL (Nsid e) (Maprange e)).
    apply W; [lia|]. rewrite sub64_id; unfold in_int64, min_int64, max_int64 in *; lia.
Qed.

Lemma first_final_shift_nonneg (how : string) (tag : Entry -> bool) (id : Z)
    (es : list Entry) :
  how = "in"%string \/ how = "out"%string ->
  Forall nonneg_ids es ->
  first_final_shift how tag id es = first_shift how tag id es.
Proof.
  intros Hhow. induction 1 as [|e rest He _ IH]; cbn; [reflexivity|].
  destruct (tag e); [|exact IH].
  destruct (shift_how how e id) as [v|err] eqn:E; [|exact IH].
  destruct (Z.eqb_spec v (-1)) as [Hv|Hv]; [|reflexivity].
  exfalso. eapply shift_nonneg_not_sentinel; eauto.
Qed.

(** C7, counterexample: in the set {gid, host -1, ns 0, range 1},
    {gid, host 7, ns 0, range 1}, the first entry shifts the namespace GID 0
    to the host with success, to -1; ShiftFromNs returns the second entry's
    7, not the result of the first entry whose shift succeeds. *)
Lemma first_successful_shift_not_taken :
  let m := mkIdmapSet [gidE (-1) 0 1; gidE 7 0 1] in
  Entry_shiftFromNS (gidE (-1) 0 1) 0 = Ok (-1)
  /\ first_shift "out" Isgid 0 (Idmap m) = -1
  /\ snd (ShiftFromNs m 0 0) = 7
  /\ snd (ShiftFromNs m 0 0) <> first_shift "out" Isgid 0 (Idmap m).
Proof.
  cbv zeta.
  assert (E1 : Entry_shiftFromNS (gidE (-1) 0 1) 0 = Ok (-1))
    by (vm_compute; reflexivity).
  assert (E2 : first_shift "out" Isgid 0 [gidE (-1) 0 1; gidE 7 0 1] = -1)
    by (vm_compute; reflexivity).
  assert (E3 : snd (ShiftFromNs (mkIdmapSet [gidE (-1) 0 1; gidE 7 0 1]) 0 0) = 7)
    by (vm_compute; reflexivity).
  split; [exact E1|]. split; [exact E2|]. split; [exact E3|].
  cbn [Idmap]. rewrite E2, E3. discriminate.
Qed.

(** C7, amended: in a set whose only UID entry is
    {uid, host 1000, ns 0, range 10}, ShiftIntoNs of 1005 gives the UID 5,
    ShiftFromNs of 5 gives the UID 1005 and ShiftIntoNs of 2000 gives -1;
    in every set an ID that no entry with the tag shifts with success gives
    -1; each component is, independently of the other, the result of the
    first entry in stored order that has the tag and shifts the ID with
    success to a value other than -1; and when no entry has a negative host
    or namespace ID, that is the first entry with the tag whose shift
    succeeds. *)
Theorem shifting_takes_first_final_match (m : IdmapSet) (g : Z) :
  filter Isuid (Idmap m) = [uidE 1000 0 10] ->
  fst (ShiftIntoNs m 1005 g) = 5
  /\ fst (ShiftFromNs m 5 g) = 1005
  /\ fst (ShiftIntoNs m 2000 g) = -1
  /\ (forall m' uid gid how,
        (forall e, In e (Idmap m') -> Isuid e = true ->
                   exists err, shift_how how e uid = Err err) ->
        fst (doShiftIntoNs m' uid gid how) = -1)
  /\ (forall m' uid gid how,
        doShiftIntoNs m' uid gid how
        = (first_final_shift how Isuid uid (Idmap m'),
           first_final_shift how Isgid gid (Idmap m')))
  /\ (forall m' uid gid how,
        how = "in"%string \/ how = "out"%string ->
        Forall nonneg_ids (Idmap m') ->
        doShiftIntoNs m' uid gid how
        = (first_shift how Isuid uid (Idmap m'),
           first_shift how Isgid gid (Idmap m'))).
Proof.
  intros Hm. unfold ShiftIntoNs, ShiftFromNs.
  rewrite !doShiftIntoNs_first_final. cbn [fst].
  rewrite (first_final_shift_filter "in" Isuid 1005 (Idmap m)).
  rewrite (first_final_shift_filter "out" Isuid 5 (Idmap m)).
  rewrite (first_final_shift_filter "in" Isuid 2000 (Idmap m)).
  rewrite Hm.
  split; [vm_compute; reflexivity|].
  split; [vm_compute; reflexivity|].
  split; [vm_compute; reflexivity|].
  split; [|split].
  - intros m' uid gid how H. rewrite doShiftIntoNs_first_final. cbn [fst].
    induction (Idmap m') as [|e rest IH]; cbn [first_final_shift];
      [reflexivity|].
    destruct (Isuid e) eqn:T.
    + destruct (H e (or_introl eq_refl) T) as [err ->].
      apply IH. intros e' Hin. apply H. now right.
    + apply IH. intros e' Hin. apply H. now right.
  - intros. apply doShiftIntoNs_first_final.
  - intros m' uid gid how Hhow Hnn. rewrite doShiftIntoNs_first_final.
    now rewrite !first_final_shift_nonneg.
Qed.

Lemma shifting_takes_first_final_match_witness :
  let m := mkIdmapSet [gidE 5000 0 10; uidE 1000 0 10; gidE 6000 10 10] in
  filter Isuid (Idmap m) = [uidE 1000 0 10]
  /\ fst (ShiftIntoNs m 1005 5003) = 5
  /\ fst (ShiftFromNs m 5 3) = 1005
  /\ fst (ShiftIntoNs m 2000 5003) = -1.
Proof.
  intros m.
  assert (Hm : filter Isuid (Idmap m) = [uidE 1000 0 10]) by reflexivity.
  split; [exact Hm|].
  destruct (shifting_takes_first_final_match m 5003 Hm) as [H1 [_ [H3 _]]].
  destruct (shifting_takes_first_final_match m 3 Hm) as [_ [H2 _]].
  split; [exact H1|]. split; [exact H2|exact H3].
Defined.

(** C10: an entry with the UID tag (the GID tag) whose shift of the given
    UID (GID) succeeds with -1 leaves the scan where it stood: the component
    returned for the set is the one returned for the entries after it. So
    in the set {uid, host 0, ns -1, range 1}, {uid, host 0, ns 5, range 1}
    the first entry shifts the host UID 0 into the namespace with success,
    to -1, and ShiftIntoNs returns the second entry's 5. *)
Theorem shift_to_minus_one_is_passed_over :
  (forall how uid gid e rest,
      Isuid e = true -> shift_how how e uid = Ok (-1) ->
      fst (doShiftIntoNs (mkIdmapSet (e :: rest)) uid gid how)
      = fst (doShiftIntoNs (mkIdmapSet rest) uid gid how))
  /\ (forall how uid gid e rest,
      Isgid e = true -> shift_how how e gid = Ok (-1) ->
      snd (doShiftIntoNs (mkIdmapSet (e :: rest)) uid gid how)
      = snd (doShiftIntoNs (mkIdmapSet rest) uid gid how))
  /\ Entry_shiftIntoNS (uidE 0 (-1) 1) 0 = Ok (-1)
  /\ Entry_shiftIntoNS (uidE 0 5 1) 0 = Ok 5
  /\ (forall gid,
        fst (ShiftIntoNs (mkIdmapSet [uidE 0 (-1) 1; uidE 0 5 1]) 0 gid) = 5).
Proof.
  split; [|split; [|split; [|split]]].
  - intros how uid gid e rest T H. rewrite !doShiftIntoNs_first_final.
    cbn [fst Idmap first_final_shift]. now rewrite T, H.
  - intros how uid gid e rest T H. rewrite !doShiftIntoNs_first_final.
    cbn [snd Idmap first_final_shift]. now rewrite T, H.
  - vm_compute; reflexivity.
  - vm_compute; reflexivity.
  - intros gid. unfold ShiftIntoNs. rewrite doShiftIntoNs_first_final.
    vm_compute. reflexivity.
Qed.

Lemma shift_to_minus_one_is_passed_over_witness :
  fst (doShiftIntoNs (mkIdmapSet [uidE (-3) 0 5; uidE 40 0 5]) 2 0 "out")
  = fst (doShiftIntoNs (mkIdmapSet [uidE 40 0 5]) 2 0 "out")
  /\ fst (doShiftIntoNs (mkIdmapSet [uidE (-3) 0 5; uidE 40 0 5]) 2 0 "out")
     = 42.
Proof.
  assert (T : Isuid (uidE (-3) 0 5) = true) by reflexivity.
  assert (H : shift_how "out" (uidE (-3) 0 5) 2 = Ok (-1))
    by (vm_compute; reflexivity).
  split.
  - exact (proj1 shift_to_minus_one_is_passed_over
             "out"%string 2 0 (uidE (-3) 0 5) [uidE 40 0 5] T H).
  - vm_compute. reflexivity.
Defined.

(** ** The two orders, and sorting by them *)

Lemma Less_strict_weak : strict_weak Less.
Proof.
  unfold strict_weak, Less. split; [|split].
  - intros [ua ga ha na ra]; cbn. destruct ua, ga; cbn; apply Z.ltb_irrefl.
  - intros [ua ga ha na ra] [ub gb hb nb rb] [uc gc hc nc rc]; cbn.
    destruct ua, ga, ub, gb, uc, gc; cbn; try congruence;
      rewrite !Z.ltb_lt; lia.
  - intros [ua ga ha na ra] [ub gb hb nb rb] [uc gc hc nc rc]; cbn.
    destruct ua, ga, ub, gb, uc, gc; cbn; try congruence;
      rewrite !Z.ltb_ge; lia.
Qed.

Lemma ByHostID_Less_strict_weak : strict_weak ByHostID_Less.
Proof.
  unfold strict_weak, ByHostID_Less. split; [|split].
  - intros a. apply Z.ltb_irrefl.
  - intros a b c. rewrite !Z.ltb_lt. lia.
  - intros a b c. rewrite !Z.ltb_ge. lia.
Qed.

Lemma strict_weak_asym (less : Entry -> Entry -> bool) (a b : Entry) :
  strict_weak less -> less a b = true -> less b a = false.
Proof.
  intros [Hirr [Htr _]] H. destruct (less b a) eqn:E; [|reflexivity].
  rewrite <- (Hirr a). symmetry. eapply Htr; eauto.
Qed.

Section InsertionSort.
Variable less : Entry -> Entry -> bool.
Variable goes_first : Entry -> Entry -> bool.
Hypothesis less_sw : strict_weak less.
Hypothesis first_ok : forall x y, goes_first x y = true -> less y x = false.
Hypothesis later_ok : forall x y, goes_first x y = false -> less x y = false.

Lemma insert_by_perm (x : Entry) (l : list Entry) :
  Permutation (x :: l) (insert_by goes_first x l).
Proof.
  induction l as [|y l IH]; cbn; [reflexivity|].
  destruct (goes_first x y); [reflexivity|].
  rewrite perm_swap. now apply perm_skip.
Qed.

Lemma sort_by_perm (l : list Entry) : Permutation l (sort_by goes_first l).
Proof.
  induction l as [|x l IH]; cbn; [reflexivity|].
  rewrite <- insert_by_perm. now apply perm_skip.
Qed.

Lemma insert_by_ascending (x : Entry) (l : list Entry) :
  ascending less l -> ascending less (insert_by goes_first x l).
Proof.
  induction 1 as [|y l Hy Hl IH]; cbn.
  - constructor; constructor.
  - destruct (goes_first x y) eqn:G.
    + constructor; [|constructor; assumption].
      constructor; [now apply first_ok|].
      apply first_ok in G. destruct less_sw as [_ [_ Hneg]].
      eapply Forall_impl; [|exact Hy]. intros z Hz. cbn in Hz.
      eapply Hneg; eauto.
    + constructor; [|exact IH].
      eapply Permutation_Forall; [apply insert_by_perm|].
      constructor; [now apply later_ok | exact Hy].
Qed.

Lemma sort_by_ascending (l : list Entry) : ascending less (sort_by goes_first l).
Proof.
  induction l as [|x l IH]; cbn; [constructor|].
  now apply insert_by_ascending.
Qed.

End InsertionSort.

Lemma stable_sort_ascending (less : Entry -> Entry -> bool) (l : list Entry) :
  strict_weak less -> ascending less (stable_sort less l).
Proof.
  intros Hsw. apply sort_by_ascending; [exact Hsw| |].
  - intros x y H. now apply negb_true_iff in H.
  - intros x y H. apply negb_false_iff in H. now apply strict_weak_asym.
Qed.

Lemma tie_reversing_sort_ascending (less : Entry -> Entry -> bool)
    (l : list Entry) :
  strict_weak less -> ascending less (tie_reversing_sort less l).
Proof.
  intros Hsw. apply sort_by_ascending; [exact Hsw| |].
  - intros x y H. now apply strict_weak_asym.
  - intros x y H. exact H.
Qed.

(** Both sorts meet the contract of [sort.Sort]. *)
Definition stable_GoSort : GoSort :=
  {| sort_Sort := stable_sort;
     sort_Sort_perm := fun less l => sort_by_perm _ l;
     sort_Sort_ascending := fun less l H => stable_sort_ascending less l H |}.

Definition tie_reversing_GoSort : GoSort :=
  {| sort_Sort := tie_reversing_sort;
     sort_Sort_perm := fun less l => sort_by_perm _ l;
     sort_Sort_ascending :=
       fun less l H => tie_reversing_sort_ascending less l H |}.

Lemma Entry_eq_dec (a b : Entry) : {a = b} + {a <> b}.
Proof.
  decide equality; try apply Z.eq_dec; apply bool_dec.
Defined.

Lemma Entry_eqb_eq (a b : Entry) : Entry_eqb a b = true <-> a = b.
Proof.
  destruct a as [ua ga ha na ra], b as [ub gb hb nb rb]. unfold Entry_eqb; cbn.
  rewrite !andb_true_iff, !Z.eqb_eq, !Bool.eqb_true_iff. split.
  - intros [[[[-> ->] ->] ->] ->]. reflexivity.
  - intros H. inversion H. auto.
Qed.

Lemma Entries_eqb_eq (l1 l2 : list Entry) : Entries_eqb l1 l2 = true <-> l1 = l2.
Proof.
  revert l2. induction l1 as [|a l1 IH]; intros [|b l2]; cbn;
    try (split; [discriminate | congruence]); [tauto|].
  rewrite andb_true_iff, Entry_eqb_eq, IH. split.
  - intros [-> ->]. reflexivity.
  - intros H. inversion H. auto.
Qed.

(** Without ties there is one way to put a list in ascending order. *)
Lemma ascending_perm_unique (less : Entry -> Entry -> bool) (l1 : list Entry) :
  forall l2, total_on less l1 -> ascending less l1 -> ascending less l2 ->
             Permutation l1 l2 -> l1 = l2.
Proof.
  induction l1 as [|a l1 IH]; intros l2 Htot A1 A2 P.
  - apply Permutation_nil in P. now subst.
  - destruct l2 as [|b l2].
    + apply Permutation_sym, Permutation_nil in P. discriminate.
    + inversion A1 as [|? ? Ha A1']; subst. inversion A2 as [|? ? Hb A2']; subst.
      destruct (Entry_eq_dec a b) as [->|Hab].
      * f_equal. apply IH; auto.
        -- intros x y Hx Hy. apply Htot; now right.
        -- eapply Permutation_cons_inv; eauto.
      * exfalso.
        assert (Ina : In a l2).
        { pose proof (Permutation_in a P (or_introl eq_refl)) as [E|I];
            [congruence | exact I]. }
        assert (Inb : In b l1).
        { pose proof (Permutation_in b (Permutation_sym P) (or_introl eq_refl))
            as [E|I]; [congruence | exact I]. }
        rewrite Forall_forall in Ha, Hb.
        pose proof (Hb a Ina) as Lab. pose proof (Ha b Inb) as Lba.
        destruct (Htot a b (or_introl eq_refl) (or_intror Inb)) as [E|[E|E]];
          congruence.
Qed.

(** So on a list without ties every sort that meets the contract of
    [sort.Sort] returns what the stable insertion sort returns, also when it
    is given the entries in another order. *)
Lemma sort_Sort_unique {S : GoSort} (less : Entry -> Entry -> bool)
    (l l' : list Entry) :
  strict_weak less -> total_on less l -> Permutation l l' ->
  sort_Sort less l' = stable_sort less l.
Proof.
  intros Hsw Htot P.
  assert (P' : Permutation (sort_Sort less l') (stable_sort less l)).
  { rewrite <- (sort_Sort_perm less l'), <- P. apply sort_by_perm. }
  apply ascending_perm_unique with (less := less); auto.
  - intros a b Ha Hb. apply Htot.
    + eapply Permutation_in; [|exact Ha].
      rewrite P'. apply Permutation_sym, sort_by_perm.
    + eapply Permutation_in; [|exact Hb].
      rewrite P'. apply Permutation_sym, sort_by_perm.
  - now apply sort_Sort_ascending.
  - now apply stable_sort_ascending.
Qed.

Lemma tied_trans (less : Entry -> Entry -> bool) (x y z : Entry) :
  strict_weak less -> tied less x y = true -> tied less x z = true ->
  tied less y z = true.
Proof.
  intros [_ [_ Hneg]]. unfold tied.
  rewrite !andb_true_iff, !negb_true_iff. intros [H1 H2] [H3 H4]. split.
  - eapply Hneg; eauto.
  - eapply Hneg; eauto.
Qed.

Lemma stable_insert_filter (less : Entry -> Entry -> bool) (x a : Entry)
    (l : list Entry) :
  strict_weak less ->
  filter (tied less x) (insert_by (fun u v => negb (less v u)) a l)
  = filter (tied less x) (a :: l).
Proof.
  intros Hsw. induction l as [|y l IH]; [reflexivity|].
  cbn [insert_by]. destruct (less y a) eqn:L; cbn [negb]; [|reflexivity].
  cbn [filter] in *. rewrite IH.
  destruct (tied less x a) eqn:Ta; [|reflexivity].
  destruct (tied less x y) eqn:Ty; [|reflexivity].
  exfalso. pose proof (tied_trans less x y a Hsw Ty Ta) as T.
  unfold tied in T. rewrite L in T. discriminate.
Qed.

(** The stable insertion sort keeps tied entries in their input order. *)
Lemma stable_sort_stable (less : Entry -> Entry -> bool) (l : list Entry) :
  strict_weak less -> stable_on less l (stable_sort less l).
Proof.
  intros Hsw x. induction l as [|a l IH]; [reflexivity|].
  unfold stable_sort in *. cbn [sort_by].
  rewrite stable_insert_filter by exact Hsw.
  cbn [filter]. now rewrite IH.
Qed.

(** ** Equals *)

Lemma two_entries_total_on (less : Entry -> Entry -> bool) (a b : Entry) :
  less a b = true -> total_on less [a; b].
Proof.
  intros H x y [<-|[<-|[]]] [<-|[<-|[]]]; auto.
Qed.

(** C5: a set with the single combined entry {uid, gid, host 100, ns 0,
    range 10} Equals the set with the two split entries, whichever of the two
    is stored first and whichever set is the receiver; a nil set and an empty
    set are Equals to each other, and a nil set to a nil set. This holds with
    every sort that meets the contract of sort.Sort. *)
Theorem Equals_ignores_representation (S : GoSort) :
  let combined := mkIdmapSet [bothE 100 0 10] in
  let uid_first := mkIdmapSet [uidE 100 0 10; gidE 100 0 10] in
  let gid_first := mkIdmapSet [gidE 100 0 10; uidE 100 0 10] in
  Equals (Some combined) (Some uid_first) = true
  /\ Equals (Some combined) (Some gid_first) = true
  /\ Equals (Some uid_first) (Some combined) = true
  /\ Equals (Some gid_first) (Some combined) = true
  /\ Equals (Some uid_first) (Some gid_first) = true
  /\ Equals None (Some (mkIdmapSet [])) = true
  /\ Equals (Some (mkIdmapSet [])) None = true
  /\ Equals None None = true.
Proof.
  intros combined uid_first gid_first.
  assert (T : total_on Less [uidE 100 0 10; gidE 100 0 10])
    by (apply two_entries_total_on; reflexivity).
  assert (E1 : Idmap (expandSortIdmap (Some combined))
               = [uidE 100 0 10; gidE 100 0 10]).
  { unfold expandSortIdmap; cbn.
    now rewrite (sort_Sort_unique Less _ _ Less_strict_weak T (Permutation_refl _)). }
  assert (E2 : Idmap (expandSortIdmap (Some uid_first))
               = [uidE 100 0 10; gidE 100 0 10]).
  { unfold expandSortIdmap; cbn.
    now rewrite (sort_Sort_unique Less _ _ Less_strict_weak T (Permutation_refl _)). }
  assert (E3 : Idmap (expandSortIdmap (Some gid_first))
               = [uidE 100 0 10; gidE 100 0 10]).
  { unfold expandSortIdmap; cbn.
    now rewrite (sort_Sort_unique Less _ _ Less_strict_weak T (perm_swap _ _ _)). }
  unfold Equals. rewrite E1, E2, E3.
  split; [reflexivity|]. split; [reflexivity|]. split; [reflexivity|].
  split; [reflexivity|]. split; [reflexivity|].
  split; [|split]; apply Entries_eqb_eq; reflexivity.
Qed.

(** ** ValidRanges *)

(** C6: for the UID entries {ns 0, range 10} and {ns 10, range 5}, with any
    host IDs and in either stored order, ValidRanges returns the one range
    [0,14]; for {ns 0, range 10} and {ns 20, range 5} it returns the two
    ranges [0,9] and [20,24]. This holds with every sort that meets the
    contract of sort.Sort. *)
Theorem ValidRanges_merges_contiguous (S : GoSort) (h1 h2 : Z) :
  ValidRanges (mkIdmapSet [uidE h1 0 10; uidE h2 10 5])
  = Ok [mkIDRange true false 0 14]
  /\ ValidRanges (mkIdmapSet [uidE h2 10 5; uidE h1 0 10])
     = Ok [mkIDRange true false 0 14]
  /\ ValidRanges (mkIdmapSet [uidE h1 0 10; uidE h2 20 5])
     = Ok [mkIDRange true false 0 9; mkIDRange true false 20 24]
  /\ ValidRanges (mkIdmapSet [uidE h2 20 5; uidE h1 0 10])
     = Ok [mkIDRange true false 0 9; mkIDRange true false 20 24].
Proof.
  assert (T1 : total_on Less [uidE h1 0 10; uidE h2 10 5])
    by (apply two_entries_total_on; reflexivity).
  assert (T2 : total_on Less [uidE h1 0 10; uidE h2 20 5])
    by (apply two_entries_total_on; reflexivity).
  unfold ValidRanges, util_DeepCopy. cbn [Idmap].
  rewrite (sort_Sort_unique Less _ _ Less_strict_weak T1 (Permutation_refl _)).
  rewrite (sort_Sort_unique Less _ _ Less_strict_weak T1 (perm_swap _ _ _)).
  rewrite (sort_Sort_unique Less _ _ Less_strict_weak T2 (Permutation_refl _)).
  rewrite (sort_Sort_unique Less _ _ Less_strict_weak T2 (perm_swap _ _ _)).
  split; [vm_compute; reflexivity|]. split; [vm_compute; reflexivity|].
  split; vm_compute; reflexivity.
Qed.

(** ** Stability *)

(** The contract of sort.Sort alone does not make a sort stable: a sort that
    meets it, and two UID entries with the namespace ID 0 (two entries with
    the host ID 5) that it returns in the order opposite to the one it was
    given. *)
Lemma sort_Sort_contract_allows_unstable :
  @sort_Sort tie_reversing_GoSort Less [uidE 1 0 10; uidE 2 0 10]
  = [uidE 2 0 10; uidE 1 0 10]
  /\ ~ stable_on Less [uidE 1 0 10; uidE 2 0 10]
       (@sort_Sort tie_reversing_GoSort Less [uidE 1 0 10; uidE 2 0 10])
  /\ @sort_Sort tie_reversing_GoSort ByHostID_Less [uidE 5 0 10; gidE 5 0 10]
     = [gidE 5 0 10; uidE 5 0 10]
  /\ ~ stable_on ByHostID_Less [uidE 5 0 10; gidE 5 0 10]
       (@sort_Sort tie_reversing_GoSort ByHostID_Less
          [uidE 5 0 10; gidE 5 0 10])
  /\ ~ (forall (S : GoSort) (l : list Entry),
          stable_on Less l (sort_Sort Less l)
          /\ stable_on ByHostID_Less l (sort_Sort ByHostID_Less l)).
Proof.
  assert (N1 : ~ stable_on Less [uidE 1 0 10; uidE 2 0 10]
                 (@sort_Sort tie_reversing_GoSort Less
                    [uidE 1 0 10; uidE 2 0 10])).
  { intros H. specialize (H (uidE 1 0 10)). vm_compute in H. discriminate. }
  assert (N2 : ~ stable_on ByHostID_Less [uidE 5 0 10; gidE 5 0 10]
                 (@sort_Sort tie_reversing_GoSort ByHostID_Less
                    [uidE 5 0 10; gidE 5 0 10])).
  { intros H. specialize (H (uidE 5 0 10)). vm_compute in H. discriminate. }
  split; [reflexivity|]. split; [exact N1|]. split; [reflexivity|].
  split; [exact N2|].
  intros H. apply N1. apply (H tie_reversing_GoSort).
Qed.

(** *** Go's insertion sort, on lists *)

Lemma data_Swap_cons (p : Entry) (t : list Entry) (i j : nat) :
  data_Swap (p :: t) (S i) (S j) = p :: data_Swap t i j.
Proof.
  unfold data_Swap. cbn [nth_error].
  destruct (nth_error t j); [|reflexivity].
  destruct (nth_error t i); reflexivity.
Qed.

Lemma data_Swap_adjacent (pre post : list Entry) (x y : Entry) :
  data_Swap (pre ++ y :: x :: post) (S (List.length pre)) (List.length pre)
  = pre ++ x :: y :: post.
Proof.
  induction pre as [|p pre IH]; [reflexivity|].
  cbn [app List.length]. now rewrite data_Swap_cons, IH.
Qed.

Lemma data_Less_adjacent (less : Entry -> Entry -> bool)
    (pre post : list Entry) (x y : Entry) :
  data_Less less (pre ++ y :: x :: post) (S (List.length pre))
            (List.length pre)
  = less x y.
Proof.
  unfold data_Less. induction pre as [|p pre IH]; [reflexivity|].
  cbn [app List.length nth_error]. exact IH.
Qed.

Lemma insert_back_rev_length (less : Entry -> Entry -> bool) (x : Entry)
    (r : list Entry) :
  List.length (insert_back_rev less x r) = S (List.length r).
Proof.
  induction r as [|y r IH]; [reflexivity|]. cbn [insert_back_rev].
  destruct (less x y); cbn [List.length]; [now rewrite IH | reflexivity].
Qed.

Lemma insertionSort_inner_spec (less : Entry -> Entry -> bool) (x : Entry)
    (r : list Entry) :
  forall post,
    insertionSort_inner less 0 (List.length r) (rev r ++ x :: post)
    = rev (insert_back_rev less x r) ++ post.
Proof.
  induction r as [|y r IH]; intros post; [reflexivity|].
  cbn [List.length insertionSort_inner rev insert_back_rev].
  rewrite <- app_assoc. cbn [app].
  pose proof (data_Less_adjacent less (rev r) post x y) as DL.
  pose proof (data_Swap_adjacent (rev r) post x y) as DS.
  rewrite length_rev in DL, DS. rewrite DL, DS.
  change (0 <? S (List.length r))%nat with true.
  cbn [andb]. destruct (less x y).
  - rewrite IH. cbn [rev]. now rewrite <- app_assoc.
  - cbn [rev]. now rewrite <- !app_assoc.
Qed.

Lemma insertionSort_outer_spec (less : Entry -> Entry -> bool)
    (rest : list Entry) :
  forall r,
    insertionSort_outer less (List.length rest) (List.length r) 0
                        (rev r ++ rest)
    = rev (insertion_sort_rev less rest r).
Proof.
  induction rest as [|x rest IH]; intros r;
    cbn [List.length insertionSort_outer insertion_sort_rev fold_left].
  - now rewrite app_nil_r.
  - rewrite insertionSort_inner_spec.
    rewrite <- (insert_back_rev_length less x r). apply IH.
Qed.

Lemma insertionSort_spec (less : Entry -> Entry -> bool) (l : list Entry) :
  insertionSort less l 0 (List.length l) = rev (insertion_sort_rev less l []).
Proof.
  destruct l as [|x l]; [reflexivity|].
  unfold insertionSort. cbn [List.length Nat.add Nat.sub].
  rewrite Nat.sub_0_r.
  exact (insertionSort_outer_spec less l [x]).
Qed.

Lemma Sort_short (less : Entry -> Entry -> bool) (l : list Entry) :
  (List.length l <= 12)%nat ->
  Sort less l = Sorted (rev (insertion_sort_rev less l [])).
Proof.
  intros H. rewrite <- insertionSort_spec. unfold Sort.
  destruct (List.length l <=? 1)%nat eqn:E.
  - destruct l as [|x [|y l]]; [reflexivity | reflexivity | discriminate].
  - cbn [pdqsort]. rewrite Nat.sub_0_r.
    now rewrite (proj2 (Nat.leb_le _ _) H).
Qed.

Lemma insert_back_rev_perm (less : Entry -> Entry -> bool) (x : Entry)
    (r : list Entry) :
  Permutation (x :: r) (insert_back_rev less x r).
Proof.
  induction r as [|y r IH]; [reflexivity|]. cbn [insert_back_rev].
  destruct (less x y); [|reflexivity].
  rewrite perm_swap. now apply perm_skip.
Qed.

Lemma insertion_sort_rev_perm (less : Entry -> Entry -> bool)
    (l : list Entry) :
  forall r, Permutation (l ++ r) (insertion_sort_rev less l r).
Proof.
  induction l as [|x l IH]; intros r; [reflexivity|].
  cbn [insertion_sort_rev fold_left app].
  rewrite <- (IH (insert_back_rev less x r)).
  rewrite <- (insert_back_rev_perm less x r). apply Permutation_middle.
Qed.

Lemma ascending_snoc (less : Entry -> Entry -> bool) (l : list Entry)
    (y : Entry) :
  ascending less (l ++ [y])
  <-> ascending less l /\ Forall (fun b => less y b = false) l.
Proof.
  induction l as [|a l IH]; cbn [app].
  - split.
    + intros _. split; constructor.
    + intros _. constructor; constructor.
  - split.
    + intros H. inversion H as [|? ? F A]; subst.
      apply Forall_app in F as [F1 F2]. apply IH in A as [A1 A2].
      inversion F2; subst. split; constructor; auto.
    + intros [H1 H2]. inversion H1 as [|? ? F A]; subst.
      inversion H2; subst. constructor.
      * apply Forall_app. split; [exact F | now constructor].
      * apply IH. now split.
Qed.

Lemma insert_back_rev_ascending (less : Entry -> Entry -> bool) (x : Entry)
    (r : list Entry) :
  strict_weak less -> ascending less (rev r) ->
  ascending less (rev (insert_back_rev less x r)).
Proof.
  intros Hsw. induction r as [|y r IH]; intros A.
  - cbn. constructor; constructor.
  - cbn [insert_back_rev]. cbn [rev] in A.
    apply ascending_snoc in A as [A1 A2].
    destruct (less x y) eqn:L.
    + cbn [rev]. apply ascending_snoc. split; [now apply IH|].
      apply Forall_forall. intros b Hb. apply in_rev in Hb.
      apply (Permutation_in _ (Permutation_sym (insert_back_rev_perm less x r)))
        in Hb.
      destruct Hb as [<-|Hb].
      * now apply strict_weak_asym.
      * apply (proj1 (Forall_forall _ _) A2). now apply -> in_rev.
    + change (rev (x :: y :: r)) with (rev (y :: r) ++ [x]).
      apply ascending_snoc. split.
      * cbn [rev]. apply ascending_snoc. now split.
      * apply Forall_forall. intros b Hb. apply in_rev in Hb.
        destruct Hb as [<-|Hb]; [exact L|].
        destruct Hsw as [_ [_ Hneg]]. apply (Hneg x y b L).
        apply (proj1 (Forall_forall _ _) A2). now apply -> in_rev.
Qed.

Lemma insertion_sort_rev_ascending (less : Entry -> Entry -> bool)
    (l : list Entry) :
  strict_weak less ->
  forall r, ascending less (rev r) ->
            ascending less (rev (insertion_sort_rev less l r)).
Proof.
  intros Hsw. induction l as [|x l IH]; intros r A; [exact A|].
  cbn [insertion_sort_rev fold_left]. apply IH.
  now apply insert_back_rev_ascending.
Qed.

Lemma insert_back_rev_filter (less : Entry -> Entry -> bool) (z x : Entry)
    (r : list Entry) :
  strict_weak less ->
  filter (tied less z) (insert_back_rev less x r)
  = filter (tied less z) (x :: r).
Proof.
  intros Hsw. induction r as [|y r IH]; [reflexivity|].
  cbn [insert_back_rev]. destruct (less x y) eqn:L; [|reflexivity].
  cbn [filter] in *. rewrite IH.
  destruct (tied less z y) eqn:Ty; destruct (tied less z x) eqn:Tx;
    try reflexivity.
  pose proof (tied_trans less z x y Hsw Tx Ty) as T.
  unfold tied in T. rewrite L in T. discriminate.
Qed.

Lemma insertion_sort_rev_filter (less : Entry -> Entry -> bool) (z : Entry)
    (l : list Entry) :
  strict_weak less ->
  forall r,
    filter (tied less z) (rev (insertion_sort_rev less l r))
    = filter (tied less z) (rev r) ++ filter (tied less z) l.
Proof.
  intros Hsw. induction l as [|x l IH]; intros r.
  - cbn. now rewrite app_nil_r.
  - change (insertion_sort_rev less (x :: l) r)
      with (insertion_sort_rev less l (insert_back_rev less x r)).
    rewrite IH. rewrite (filter_rev _ (insert_back_rev less x r)).
    rewrite insert_back_rev_filter by exact Hsw.
    rewrite <- filter_rev. cbn [rev]. rewrite filter_app, <- app_assoc.
    f_equal. cbn [filter]. now destruct (tied less z x).
Qed.

(** With at most 12 entries [sort.Sort] is the insertion sort, and the
    insertion sort is stable. *)
Lemma Sort_short_stable (less : Entry -> Entry -> bool) (l : list Entry) :
  strict_weak less -> (List.length l <= 12)%nat ->
  exists out,
    Sort less l = Sorted out
    /\ Permutation l out /\ ascending less out /\ stable_on less l out.
Proof.
  intros Hsw H. exists (rev (insertion_sort_rev less l [])).
  split; [now apply Sort_short|]. split; [|split].
  - rewrite <- Permutation_rev, <- insertion_sort_rev_perm.
    now rewrite app_nil_r.
  - apply insertion_sort_rev_ascending; [exact Hsw | constructor].
  - intros z. now rewrite insertion_sort_rev_filter.
Qed.

(** C9, counterexample: 12 UID entries with the namespace ID 5, followed by
    one with the namespace ID 0. [sort.Sort] by [Less] returns the entries in
    ascending order, but the tied entries with the host IDs 7 and 2 have left
    their places: 7 now comes first of the twelve and 2 last. The same
    happens by the host-ID order to 12 entries with the host ID 5 followed by
    one with the host ID 0. So it is not true that for every input list the
    tied entries keep their input order. *)
Lemma Sort_moves_tied_entries :
  let l := [uidE 1 5 1; uidE 2 5 1; uidE 3 5 1; uidE 4 5 1; uidE 5 5 1;
            uidE 6 5 1; uidE 7 5 1; uidE 8 5 1; uidE 9 5 1; uidE 10 5 1;
            uidE 11 5 1; uidE 12 5 1; uidE 13 0 1] in
  let out := [uidE 13 0 1; uidE 7 5 1; uidE 3 5 1; uidE 4 5 1; uidE 5 5 1;
              uidE 6 5 1; uidE 1 5 1; uidE 8 5 1; uidE 9 5 1; uidE 10 5 1;
              uidE 11 5 1; uidE 12 5 1; uidE 2 5 1] in
  let h := [uidE 5 1 1; uidE 5 2 1; uidE 5 3 1; uidE 5 4 1; uidE 5 5 1;
            uidE 5 6 1; uidE 5 7 1; uidE 5 8 1; uidE 5 9 1; uidE 5 10 1;
            uidE 5 11 1; uidE 5 12 1; uidE 0 13 1] in
  let hout := [uidE 0 13 1; uidE 5 7 1; uidE 5 3 1; uidE 5 4 1; uidE 5 5 1;
               uidE 5 6 1; uidE 5 1 1; uidE 5 8 1; uidE 5 9 1; uidE 5 10 1;
               uidE 5 11 1; uidE 5 12 1; uidE 5 2 1] in
  Sort Less l = Sorted out
  /\ ~ stable_on Less l out
  /\ Sort ByHostID_Less h = Sorted hout
  /\ ~ stable_on ByHostID_Less h hout
  /\ ~ (forall l out, Sort Less l = Sorted out -> stable_on Less l out)
  /\ ~ (forall l out, Sort ByHostID_Less l = Sorted out ->
                      stable_on ByHostID_Less l out).
Proof.
  intros l out h hout.
  assert (E1 : Sort Less l = Sorted out) by (vm_compute; reflexivity).
  assert (N1 : ~ stable_on Less l out).
  { intros H. specialize (H (uidE 1 5 1)). vm_compute in H. discriminate. }
  assert (E2 : Sort ByHostID_Less h = Sorted hout) by (vm_compute; reflexivity).
  assert (N2 : ~ stable_on ByHostID_Less h hout).
  { intros H. specialize (H (uidE 5 1 1)). vm_compute in H. discriminate. }
  split; [exact E1|]. split; [exact N1|]. split; [exact E2|].
  split; [exact N2|]. split.
  - intros H. exact (N1 (H l out E1)).
  - intros H. exact (N2 (H h hout E2)).
Qed.

(** C9, amended: the canonical order puts the entries with the UID flag
    first, among entries with the same UID flag those with the GID flag
    first, and among entries with the same flags those with the smaller
    namespace ID first; the host-ID order puts the smaller host ID first;
    both are strict weak orders. On an input of at most 12 entries
    [sort.Sort] returns, by either order, the entries in ascending order with
    tied entries in their input order. On a longer input it need not; but
    when no two entries of the input are tied, every sort that meets the
    contract of sort.Sort returns the one ascending arrangement, in which
    there is no tie to keep in order. *)
Theorem Sort_stable_up_to_12_entries_or_without_ties (l : list Entry) :
  (forall a b, Isuid a = true -> Isuid b = false -> Less a b = true)
  /\ (forall a b, Isuid a = Isuid b -> Isgid a = true -> Isgid b = false ->
                  Less a b = true)
  /\ (forall a b, Isuid a = Isuid b -> Isgid a = Isgid b ->
                  Less a b = (Nsid a <? Nsid b))
  /\ (forall a b, ByHostID_Less a b = (Hostid a <? Hostid b))
  /\ strict_weak Less /\ strict_weak ByHostID_Less
  /\ ((List.length l <= 12)%nat ->
      exists out,
        Sort Less l = Sorted out
        /\ Permutation l out /\ ascending Less out /\ stable_on Less l out)
  /\ ((List.length l <= 12)%nat ->
      exists out,
        Sort ByHostID_Less l = Sorted out
        /\ Permutation l out /\ ascending ByHostID_Less out
        /\ stable_on ByHostID_Less l out)
  /\ (forall S : GoSort,
        total_on Less l ->
        sort_Sort Less l = stable_sort Less l
        /\ stable_on Less l (sort_Sort Less l))
  /\ (forall S : GoSort,
        total_on ByHostID_Less l ->
        sort_Sort ByHostID_Less l = stable_sort ByHostID_Less l
        /\ stable_on ByHostID_Less l (sort_Sort ByHostID_Less l)).
Proof.
  split.
  { intros a b Ha Hb. unfold Less. now rewrite Ha, Hb. }
  split.
  { intros a b E Ha Hb. unfold Less. rewrite E, Ha, Hb.
    now destruct (Isuid b). }
  split.
  { intros a b Eu Eg. unfold Less. rewrite Eu, Eg.
    now destruct (Isuid b), (Isgid b). }
  split; [reflexivity|].
  split; [exact Less_strict_weak|]. split; [exact ByHostID_Less_strict_weak|].
  split; [apply Sort_short_stable, Less_strict_weak|].
  split; [apply Sort_short_stable, ByHostID_Less_strict_weak|].
  split; intros S T.
  - rewrite (sort_Sort_unique Less l l Less_strict_weak T (Permutation_refl _)).
    split; [reflexivity|]. apply stable_sort_stable, Less_strict_weak.
  - rewrite (sort_Sort_unique ByHostID_Less l l ByHostID_Less_strict_weak T
               (Permutation_refl _)).
    split; [reflexivity|]. apply stable_sort_stable, ByHostID_Less_strict_weak.
Qed.

Lemma Sort_stable_up_to_12_entries_or_without_ties_witness :
  let l := [gidE 300 0 10; uidE 2 5 1; bothE 7 0 1; uidE 1 5 1;
            uidE 100 0 10] in
  (List.length l <= 12)%nat
  /\ Sort Less l
     = Sorted [bothE 7 0 1; uidE 100 0 10; uidE 2 5 1; uidE 1 5 1;
               gidE 300 0 10]
  /\ exists out,
       Sort Less l = Sorted out
       /\ Permutation l out /\ ascending Less out /\ stable_on Less l out.
Proof.
  intros l.
  assert (H : (List.length l <= 12)%nat) by (cbn; lia).
  split; [exact H|]. split; [vm_compute; reflexivity|].
  exact (proj1 (proj2 (proj2 (proj2 (proj2 (proj2
           (proj2 (Sort_stable_up_to_12_entries_or_without_ties l)))))))
           H).
Defined.

(** ** JSON *)

Lemma dec_enc_pos (p : positive) (rest : string) :
  dec_pos (enc_pos p ++ rest) = Some (p, rest).
Proof.
  induction p as [q IH|q IH|]; cbn; try rewrite IH; reflexivity.
Qed.

Lemma dec_enc_Z (z : Z) (rest : string) :
  dec_Z (enc_Z z ++ rest) = Some (z, rest).
Proof.
  destruct z; cbn; try rewrite dec_enc_pos; reflexivity.
Qed.

Lemma dec_enc_bool (b : bool) (rest : string) :
  dec_bool (enc_bool b ++ rest) = Some (b, rest).
Proof. destruct b; reflexivity. Qed.

Lemma string_app_assoc (a b c : string) :
  ((a ++ b) ++ c = a ++ (b ++ c))%string.
Proof. induction a as [|ch a IH]; cbn; [reflexivity | now rewrite IH]. Qed.

Lemma dec_enc_entry (e : Entry) (rest : string) :
  dec_entry (enc_entry e ++ rest) = Some (e, rest).
Proof.
  destruct e as [u g h n r]. unfold enc_entry, dec_entry; cbn [Isuid Isgid Hostid Nsid Maprange].
  rewrite !string_app_assoc.
  rewrite dec_enc_bool, dec_enc_bool, !dec_enc_Z. reflexivity.
Qed.

Lemma dec_enc_entries (l : list Entry) (rest : string) :
  dec_entries (List.length l) (enc_entries l ++ rest) = Some (l, rest).
Proof.
  induction l as [|e l IH]; cbn [List.length enc_entries dec_entries];
    [reflexivity|].
  now rewrite string_app_assoc, dec_enc_entry, IH.
Qed.

Lemma string_app_empty (a : string) : (a ++ "")%string = a.
Proof. induction a as [|ch a IH]; cbn; [reflexivity | now rewrite IH]. Qed.

Lemma ref_roundtrip (l : list Entry) (s : string) :
  ref_Marshal l = Ok s -> ref_Unmarshal s = Ok l.
Proof.
  unfold ref_Marshal, ref_Unmarshal. intros H. inversion H; subst s.
  rewrite dec_enc_Z, Nat2Z.id.
  rewrite <- (string_app_empty (enc_entries l)).
  now rewrite dec_enc_entries.
Qed.

Definition reference_GoJSON : GoJSON :=
  {| json_Marshal := ref_Marshal;
     json_Unmarshal := ref_Unmarshal;
     json_Marshal_ok := fun l => ex_intro _ _ eq_refl;
     json_roundtrip := ref_roundtrip |}.

Lemma Equals_refl {S : GoSort} (m : option IdmapSet) : Equals m m = true.
Proof. unfold Equals. now apply Entries_eqb_eq. Qed.

(** With every codec that meets the contract of encoding/json and every
    sort that meets the contract of sort.Sort: JSONMarshal of a set succeeds,
    JSONUnmarshal of its text succeeds and returns nil when the set has no
    entry, and the set itself otherwise. *)
Lemma JSON_round_trip_by_contract (S : GoSort) (J : GoJSON) (m : IdmapSet) :
  snd (JSONMarshal m) = None
  /\ snd (JSONUnmarshal (fst (JSONMarshal m))) = None
  /\ Equals (fst (JSONUnmarshal (fst (JSONMarshal m)))) (Some m) = true
  /\ fst (JSONUnmarshal (fst (JSONMarshal m)))
     = match Idmap m with [] => None | _ :: _ => Some m end.
Proof.
  unfold JSONMarshal, JSONUnmarshal.
  destruct (json_Marshal_ok (Idmap m)) as [s Hs]. rewrite Hs. cbn [fst snd].
  rewrite (json_roundtrip _ _ Hs).
  destruct m as [[|e l]]; cbn [Idmap List.length Nat.eqb fst snd].
  - split; [reflexivity|]. split; [reflexivity|]. split; [|reflexivity].
    unfold Equals, expandSortIdmap. cbn. now apply Entries_eqb_eq.
  - split; [reflexivity|]. split; [reflexivity|]. split; [|reflexivity].
    apply Equals_refl.
Qed.

(** *** The text of [json.Marshal], read back *)

Lemma take_prefix_app (p r : string) : take_prefix p (p ++ r) = Some r.
Proof.
  induction p as [|c p IH]; cbn; [reflexivity|].
  now rewrite Ascii.eqb_refl.
Qed.

Lemma json_dec_bool_app (b : bool) (r : string) :
  json_dec_bool (json_bool b ++ r) = Some (b, r).
Proof. destruct b; reflexivity. Qed.

Lemma string_of_uint_int_chars (d : Decimal.uint) :
  all_int_chars (NilEmpty.string_of_uint d) = true.
Proof. induction d; cbn; auto. Qed.

Lemma string_of_uint_zero_int_chars (d : Decimal.uint) :
  all_int_chars (NilZero.string_of_uint d) = true.
Proof. destruct d; try reflexivity; apply string_of_uint_int_chars. Qed.

Lemma json_int_int_chars (z : Z) : all_int_chars (json_int z) = true.
Proof.
  unfold json_int, NilZero.string_of_int.
  destruct (Z.to_int z) as [d|d].
  - apply string_of_uint_zero_int_chars.
  - cbn [all_int_chars]. apply andb_true_iff.
    split; [reflexivity | apply string_of_uint_zero_int_chars].
Qed.

Lemma span_int_app (d t : string) :
  all_int_chars d = true -> starts_clean t = true ->
  span_int (d ++ t) = (d, t).
Proof.
  intros D T. induction d as [|c d IH]; cbn [append span_int].
  - destruct t as [|c t]; [reflexivity|]. cbn [span_int].
    cbn [starts_clean] in T. apply negb_true_iff in T. now rewrite T.
  - cbn [all_int_chars] in D. apply andb_true_iff in D as [D1 D2].
    now rewrite D1, (IH D2).
Qed.

Lemma json_dec_int_app (z : Z) (t : string) :
  starts_clean t = true -> json_dec_int (json_int z ++ t) = Some (z, t).
Proof.
  intros T. unfold json_dec_int.
  rewrite (span_int_app _ _ (json_int_int_chars z) T). unfold json_int.
  rewrite NilZero.isi.
  - now rewrite DecimalZ.of_to.
  - destruct z; cbn; try discriminate.
    intros H. inversion H as [E]. now apply Unsigned.to_uint_nonnil in E.
  - destruct z; cbn; try discriminate.
    intros H. inversion H as [E]. now apply Unsigned.to_uint_nonnil in E.
Qed.

Lemma json_dec_Entry_app (e : Entry) (r : string) :
  json_dec_Entry (json_Entry e ++ r) = Some (e, r).
Proof.
  destruct e as [u g h n m]. unfold json_Entry, json_dec_Entry, json_dec_field.
  cbn [Isuid Isgid Hostid Nsid Maprange].
  rewrite !string_app_assoc.
  rewrite take_prefix_app, json_dec_bool_app.
  rewrite take_prefix_app, json_dec_bool_app.
  rewrite take_prefix_app, json_dec_int_app by reflexivity.
  rewrite take_prefix_app, json_dec_int_app by reflexivity.
  rewrite take_prefix_app, json_dec_int_app by reflexivity.
  reflexivity.
Qed.

Lemma string_length_app (a b : string) :
  String.length (a ++ b) = (String.length a + String.length b)%nat.
Proof. induction a as [|c a IH]; cbn; [reflexivity | now rewrite IH]. Qed.

Lemma json_tail_length (l : list Entry) :
  (List.length l < String.length (json_tail l))%nat.
Proof.
  induction l as [|e l IH]; cbn [json_tail List.length]; [cbn; lia|].
  rewrite !string_length_app. cbn [String.length]. lia.
Qed.

Lemma json_dec_tail_app (l : list Entry) :
  forall fuel, (List.length l < fuel)%nat ->
               json_dec_tail fuel (json_tail l) = Some l.
Proof.
  induction l as [|e l IH]; intros [|fuel] H; cbn [List.length] in H;
    try lia; [reflexivity|].
  cbn [json_tail]. change ("," ++ json_Entry e ++ json_tail l)%string
    with (String ","%char (json_Entry e ++ json_tail l)).
  cbn [json_dec_tail]. rewrite json_dec_Entry_app, IH by lia. reflexivity.
Qed.

Lemma json_parse_array (e : Entry) (l : list Entry) :
  json_parse (String "["%char (json_Entry e ++ json_tail l))
  = match json_dec_Entry (json_Entry e ++ json_tail l) with
    | Some (e', r) =>
        option_map (fun t => Some (e' :: t))
                   (json_dec_tail (String.length r) r)
    | None => None
    end.
Proof. reflexivity. Qed.

Lemma json_parse_Marshal (v : slice) (s : string) :
  go_json_Marshal v = Ok s -> json_parse s = Some v.
Proof.
  destruct v as [[|e l]|]; intros H.
  - inversion H. reflexivity.
  - assert (E : s = String "["%char (json_Entry e ++ json_tail l))
      by (inversion H; reflexivity).
    rewrite E, json_parse_array, json_dec_Entry_app.
    rewrite json_dec_tail_app by apply json_tail_length. reflexivity.
  - inversion H. reflexivity.
Qed.

(** [json.Unmarshal] gives back the elements of the slice that
    [json.Marshal] wrote; for [null] there is none. *)
Lemma go_json_roundtrip (v : slice) (s : string) :
  go_json_Marshal v = Ok s -> go_json_Unmarshal s = Ok (elements v).
Proof.
  intros H. unfold go_json_Unmarshal.
  rewrite (json_parse_Marshal v s H), H. now rewrite String.eqb_refl.
Qed.

Lemma go_json_Marshal_ok (v : slice) : exists s, go_json_Marshal v = Ok s.
Proof. destruct v as [[|e l]|]; eexists; reflexivity. Qed.

(** The codec of Go meets the contract. *)
Definition encoding_json : GoJSON :=
  {| json_Marshal := fun l => go_json_Marshal (Some l);
     json_Unmarshal := go_json_Unmarshal;
     json_Marshal_ok := fun l => go_json_Marshal_ok (Some l);
     json_roundtrip := fun l s H => go_json_roundtrip (Some l) s H |}.

(** C8, counterexample: a set whose field [Idmap] is the nil slice has zero
    entries, and JSONMarshal writes it as [null], which is no array;
    the empty array is what it writes for an empty slice that is not nil.
    JSONUnmarshal returns the nil set for both texts. *)
Lemma JSONMarshal_writes_null_for_nil_slice :
  elements None = []
  /\ JSONMarshal_slice None = ("null"%string, None)
  /\ fst (JSONMarshal_slice None) <> "[]"%string
  /\ JSONMarshal_slice (Some []) = ("[]"%string, None)
  /\ @JSONUnmarshal encoding_json "null" = (None, None)
  /\ @JSONUnmarshal encoding_json "[]" = (None, None).
Proof.
  split; [reflexivity|]. split; [reflexivity|]. split; [discriminate|].
  split; [reflexivity|]. split; vm_compute; reflexivity.
Qed.

(** C8, amended: for every set, whether its field [Idmap] is nil, empty or
    holds entries, JSONMarshal succeeds, JSONUnmarshal of the text it writes
    succeeds, and the set that JSONUnmarshal returns is Equals to the
    marshalled one. When the set has no entry the text is [null] for the
    nil slice and the empty array for an empty slice; in both cases
    JSONUnmarshal returns nil, not an empty set, and Equals takes the nil
    set for equal to the marshalled one. Otherwise JSONUnmarshal returns a
    set with the same entries. The text is the one of Go's encoding/json,
    and this holds with every sort that meets the contract of sort.Sort. *)
Theorem JSON_round_trip (S : GoSort) (idmap : slice) :
  let m := mkIdmapSet (elements idmap) in
  let text := fst (JSONMarshal_slice idmap) in
  snd (JSONMarshal_slice idmap) = None
  /\ snd (@JSONUnmarshal encoding_json text) = None
  /\ Equals (fst (@JSONUnmarshal encoding_json text)) (Some m) = true
  /\ (elements idmap = [] ->
      text = match idmap with None => "null" | Some _ => "[]" end%string
      /\ fst (@JSONUnmarshal encoding_json text) = None
      /\ Equals None (Some m) = true)
  /\ (elements idmap <> [] ->
      fst (@JSONUnmarshal encoding_json text) = Some m)
  /\ (forall m' : IdmapSet,
        @JSONMarshal encoding_json m' = JSONMarshal_slice (Some (Idmap m'))).
Proof.
  intros m text.
  assert (N : Equals None (Some (mkIdmapSet [])) = true).
  { unfold Equals, expandSortIdmap. cbn. now apply Entries_eqb_eq. }
  destruct idmap as [l|].
  - destruct (JSON_round_trip_by_contract S encoding_json (mkIdmapSet l))
      as [M [U [E R]]].
    change (@JSONMarshal encoding_json (mkIdmapSet l))
      with (JSONMarshal_slice (Some l)) in M, U, E, R.
    cbn [Idmap] in R. subst m text. cbn [elements].
    split; [exact M|]. split; [exact U|]. split; [exact E|].
    split; [|split; [|reflexivity]].
    + intros ->. split; [reflexivity|]. split; [exact R | exact N].
    + intros H. rewrite R. destruct l; [now elim H | reflexivity].
  - subst m text. cbn [elements].
    assert (U : @JSONUnmarshal encoding_json
                  (fst (JSONMarshal_slice None)) = (None, None))
      by (vm_compute; reflexivity).
    rewrite U. cbn [fst snd].
    split; [reflexivity|]. split; [reflexivity|]. split; [exact N|].
    split; [|split; [|reflexivity]].
    + intros _. split; [reflexivity|]. split; [reflexivity | exact N].
    + intros H. now elim H.
Qed.

(** ** The invariant kept by the mutations *)

(** C1, counterexample: the set built by AddSafe of {uid, host 100, ns 0,
    range 10} into the empty set meets the stated invariant; AddSafe of
    {uid, host 105, ns 20, range 10}, whose namespace range meets no entry,
    succeeds, and the host ranges [100,109] and [105,114] of the two UID
    entries of the result overlap. *)
Lemma AddSafe_admits_overlapping_hosts :
  let m := mkIdmapSet [uidE 100 0 10] in
  let i := uidE 105 20 10 in
  AddSafe (mkIdmapSet []) (uidE 100 0 10) = (m, None)
  /\ stated_invariant (Idmap m) = true
  /\ AddSafe m i = (mkIdmapSet [uidE 100 0 10; uidE 105 20 10], None)
  /\ stated_invariant (Idmap (fst (AddSafe m i))) = false.
Proof.
  cbv zeta. split; [vm_compute; reflexivity|]. split; [vm_compute; reflexivity|].
  split; vm_compute; reflexivity.
Qed.

Lemma shared_tag_sym (a b : Entry) : shared_tag a b = shared_tag b a.
Proof. unfold shared_tag. now rewrite (andb_comm (Isuid a)), (andb_comm (Isgid a)). Qed.

Lemma ranges_overlap_sym (a r b s : Z) : ranges_overlap a r b s = ranges_overlap b s a r.
Proof. unfold ranges_overlap. now rewrite Z.max_comm, Z.min_comm. Qed.

Lemma Entry_Intersects_sym (a b : Entry) : Entry_Intersects a b = Entry_Intersects b a.
Proof. unfold Entry_Intersects. now rewrite shared_tag_sym, ranges_overlap_sym. Qed.

Lemma Intersects_loop_false (i : Entry) (es : list Entry) :
  Intersects_loop i es = false <-> Forall (fun e => Entry_Intersects i e = false) es.
Proof.
  induction es as [|e es IH]; cbn.
  - split; [constructor | reflexivity].
  - destruct (Entry_Intersects i e) eqn:E.
    + split; [discriminate|]. intros H. inversion H; congruence.
    + rewrite IH. split; [now constructor | intros H; now inversion H].
Qed.

Lemma ns_disjoint_app (l1 l2 : list Entry) :
  ns_disjoint (l1 ++ l2) = true
  <-> ns_disjoint l1 = true /\ ns_disjoint l2 = true
      /\ (forall a b, In a l1 -> In b l2 -> Entry_Intersects a b = false).
Proof.
  induction l1 as [|x l1 IH]; cbn [app ns_disjoint].
  - split; [intros H; repeat split; auto; intros a b []|tauto].
  - rewrite !andb_true_iff, IH, !forallb_forall. split.
    + intros [Hx [H1 [H2 H12]]]. repeat split; auto.
      * intros y Hy. apply Hx, in_or_app. now left.
      * intros a b [<-|Ha] Hb; [|now apply H12].
        apply negb_true_iff, Hx, in_or_app. now right.
    + intros [[Hx H1] [H2 H12]]. repeat split; auto.
      * intros y Hy. apply in_app_or in Hy as [Hy|Hy]; [now apply Hx|].
        apply negb_true_iff, H12; [now left | exact Hy].
      * intros a b Ha Hb. apply H12; [now right | exact Hb].
Qed.

Lemma ns_disjoint_singleton (e : Entry) : ns_disjoint [e] = true.
Proof. reflexivity. Qed.

(** In the ID space two entries intersect when they share a tag and each
    starts before the other one ends. *)
Lemma Entry_Intersects_ok (a b : Entry) :
  entry_ok a -> entry_ok b ->
  Entry_Intersects a b = true
  <-> shared_tag a b = true /\ Nsid a < Nsid b + Maprange b
      /\ Nsid b < Nsid a + Maprange a.
Proof.
  unfold entry_ok, id_space. intros Ha Hb.
  unfold Entry_Intersects, ranges_overlap.
  rewrite !range_last_id
    by (unfold in_int64, min_int64, max_int64; lia).
  rewrite andb_true_iff, Z.leb_le.
  split; intros [H1 H2]; (split; [exact H1 | lia]).
Qed.

Lemma Entry_Intersects_ok_false (a b : Entry) :
  entry_ok a -> entry_ok b ->
  Entry_Intersects a b = false
  <-> shared_tag a b = false \/ Nsid a + Maprange a <= Nsid b
      \/ Nsid b + Maprange b <= Nsid a.
Proof.
  intros Ha Hb. pose proof (Entry_Intersects_ok a b Ha Hb) as H.
  destruct (Entry_Intersects a b), (shared_tag a b); split; intros K;
    try reflexivity; try (now left); try discriminate.
  - destruct H as [H _]. specialize (H eq_refl). lia.
  - destruct H as [H _]. specialize (H eq_refl). destruct H; discriminate.
  - right. destruct (Z_lt_le_dec (Nsid a) (Nsid b + Maprange b)) as [L1|L1];
      [|now right].
    destruct (Z_lt_le_dec (Nsid b) (Nsid a + Maprange a)) as [L2|L2];
      [|now left].
    destruct H as [_ H]. specialize (H (conj eq_refl (conj L1 L2))).
    discriminate.
Qed.

Lemma AddSafe_loop_skip (i : Entry) (l1 : list Entry) :
  forall rest res added,
    Forall (fun e => Entry_Intersects e i = false) l1 ->
    AddSafe_loop i (l1 ++ rest) res added
    = AddSafe_loop i rest (res ++ l1) added.
Proof.
  induction l1 as [|e l1 IH]; intros rest res added H; cbn [app AddSafe_loop].
  - now rewrite app_nil_r.
  - inversion H as [|? ? He Hl]; subst. rewrite He. cbn [negb].
    rewrite IH by exact Hl. now rewrite <- app_assoc.
Qed.

Lemma AddSafe_loop_split (i e : Entry) (rest res : list Entry) (added : bool) :
  Entry_Intersects e i = true -> Entry_HostidsIntersect e i = false ->
  AddSafe_loop i (e :: rest) res added
  = AddSafe_loop i rest (res ++ split_pieces e i) true.
Proof.
  intros HI HH. cbn [AddSafe_loop]. rewrite HI, HH. cbn [negb].
  unfold split_pieces. cbv zeta.
  destruct (0 <? _); destruct (0 <? _); cbn [app];
    rewrite <- ?app_assoc; reflexivity.
Qed.

(** A list with at most one element that meets [f] is free of them, or
    splits around the one. *)
Lemma at_most_one_split (f : Entry -> bool) (l : list Entry) :
  (List.length (filter f l) <= 1)%nat ->
  Forall (fun e => f e = false) l
  \/ exists l1 e l2, l = l1 ++ e :: l2 /\ f e = true
       /\ Forall (fun e => f e = false) l1 /\ Forall (fun e => f e = false) l2.
Proof.
  induction l as [|x l IH]; cbn [filter]; intros H.
  - left. constructor.
  - destruct (f x) eqn:Fx.
    + right. exists [], x, l. repeat split; auto.
      cbn in H. assert (E : filter f l = []).
      { destruct (filter f l); [reflexivity | cbn in H; lia]. }
      clear H IH. induction l as [|y l IH]; [constructor|].
      cbn in E. destruct (f y) eqn:Fy; [discriminate|].
      constructor; auto.
    + destruct (IH H) as [All | [l1 [e [l2 [-> [Fe [H1 H2]]]]]]].
      * left. now constructor.
      * right. exists (x :: l1), e, l2. repeat split; auto.
Qed.

(** The pieces without the wrap-around, in the ID space. *)
Lemma split_pieces_ok_eq (e i : Entry) :
  entry_ok e -> entry_ok i ->
  split_pieces e i
  = (if 0 <? Nsid i - Nsid e
     then [mkEntry (Isuid e) (Isgid e) (Hostid e) (Nsid e) (Nsid i - Nsid e)]
     else [])
      ++ [i]
      ++ (if 0 <? Nsid e + Maprange e - (Nsid i + Maprange i)
          then [mkEntry (Isuid e) (Isgid e)
                  (Hostid e + (Nsid i + Maprange i - Nsid e))
                  (Nsid i + Maprange i)
                  (Nsid e + Maprange e - (Nsid i + Maprange i))]
          else []).
Proof.
  unfold entry_ok, id_space. intros He Hi. unfold split_pieces. cbv zeta.
  cbn [Maprange].
  assert (B : forall z, - 2 ^ 34 <= z <= 2 ^ 34 -> in_int64 z)
    by (unfold in_int64, min_int64, max_int64; intros; lia).
  rewrite (sub64_id (Nsid i) (Nsid e)) by (apply B; lia).
  rewrite (add64_id (Hostid e)) by (apply B; lia).
  rewrite (add64_id (Hostid e + _)) by (apply B; lia).
  rewrite (add64_id (Nsid i)) by (apply B; lia).
  rewrite (sub64_id (Maprange e)) by (apply B; lia).
  rewrite (sub64_id (Maprange e - _)) by (apply B; lia).
  replace (Maprange e - Maprange i - (Nsid i - Nsid e))
    with (Nsid e + Maprange e - (Nsid i + Maprange i)) by lia.
  replace (Hostid e + (Nsid i - Nsid e) + Maprange i)
    with (Hostid e + (Nsid i + Maprange i - Nsid e)) by lia.
  reflexivity.
Qed.

Lemma inside_apart (x p e : Entry) :
  entry_ok x -> entry_ok p -> entry_ok e -> inside p e ->
  Entry_Intersects x e = false -> Entry_Intersects x p = false.
Proof.
  intros Hx Hp He [Hu [Hg [H1 H2]]] H.
  apply (Entry_Intersects_ok_false x e Hx He) in H.
  apply (Entry_Intersects_ok_false x p Hx Hp).
  unfold shared_tag in *. rewrite Hu, Hg.
  destruct H as [H|[H|H]]; [now left | right; left; lia | right; right; lia].
Qed.

Lemma split_pieces_facts (e i : Entry) :
  entry_ok e -> entry_ok i -> Entry_Intersects e i = true ->
  Forall (fun p => entry_ok p
                   /\ (p = i \/ (inside p e /\ Entry_Intersects p i = false)))
         (split_pieces e i)
  /\ ns_disjoint (split_pieces e i) = true.
Proof.
  intros He Hi HI. rewrite (split_pieces_ok_eq e i He Hi).
  apply (Entry_Intersects_ok e i He Hi) in HI. destruct HI as [_ [I1 I2]].
  set (lower := mkEntry (Isuid e) (Isgid e) (Hostid e) (Nsid e)
                  (Nsid i - Nsid e)).
  set (upper := mkEntry (Isuid e) (Isgid e)
                  (Hostid e + (Nsid i + Maprange i - Nsid e))
                  (Nsid i + Maprange i)
                  (Nsid e + Maprange e - (Nsid i + Maprange i))).
  assert (Lok : 0 < Nsid i - Nsid e -> entry_ok lower).
  { unfold entry_ok, id_space in *. cbn. lia. }
  assert (Uok : 0 < Nsid e + Maprange e - (Nsid i + Maprange i) ->
                entry_ok upper).
  { unfold entry_ok, id_space in *. cbn. lia. }
  assert (Lin : inside lower e).
  { unfold inside, entry_ok in *. cbn. repeat split; try reflexivity; lia. }
  assert (Uin : inside upper e).
  { unfold inside, entry_ok in *. cbn. repeat split; try reflexivity; lia. }
  assert (Li : 0 < Nsid i - Nsid e -> Entry_Intersects lower i = false).
  { intros P. apply Entry_Intersects_ok_false; auto. right. left. cbn. lia. }
  assert (Ui : 0 < Nsid e + Maprange e - (Nsid i + Maprange i) ->
               Entry_Intersects upper i = false).
  { intros P. apply Entry_Intersects_ok_false; auto. right. right. cbn. lia. }
  assert (LU : 0 < Nsid i - Nsid e ->
               0 < Nsid e + Maprange e - (Nsid i + Maprange i) ->
               Entry_Intersects lower upper = false).
  { intros P Q. apply Entry_Intersects_ok_false; auto. right. left. cbn.
    unfold entry_ok in Hi. lia. }
  destruct (Z.ltb_spec 0 (Nsid i - Nsid e)) as [P|P];
    destruct (Z.ltb_spec 0 (Nsid e + Maprange e - (Nsid i + Maprange i)))
      as [Q|Q]; cbn [app]; split;
    repeat (constructor; auto);
    cbn [ns_disjoint forallb];
    rewrite ?(Li P), ?(LU P Q), ?(Entry_Intersects_sym i upper), ?(Ui Q);
    reflexivity.
Qed.

Lemma Append_keeps_ns_disjoint (parse : string -> result Entry)
    (m m' : IdmapSet) (s : string) :
  ns_disjoint (Idmap m) = true -> Append parse m s = (m', None) ->
  ns_disjoint (Idmap m') = true
  /\ exists e, parse s = Ok e /\ Idmap m' = Idmap m ++ [e].
Proof.
  intros D. unfold Append. destruct (parse s) as [e|err]; [|discriminate].
  destruct (Intersects m e) eqn:I; [discriminate|].
  intros H. inversion H; subst m'. cbn [Idmap]. split; [|now exists e].
  apply ns_disjoint_app. split; [exact D|]. split; [reflexivity|].
  intros a b Ha [<-|[]]. unfold Intersects in I.
  rewrite Intersects_loop_false, Forall_forall in I.
  rewrite Entry_Intersects_sym. now apply I.
Qed.

Lemma ns_disjoint_pair (l : list Entry) (a b : Entry) (l1 l2 : list Entry) :
  ns_disjoint l = true -> l = l1 ++ a :: l2 -> In b (l1 ++ l2) ->
  Entry_Intersects b a = false.
Proof.
  intros D -> Hb. apply ns_disjoint_app in D as [D1 [D2 D12]].
  apply in_app_or in Hb as [Hb|Hb].
  - apply D12; [exact Hb | now left].
  - cbn [ns_disjoint] in D2. apply andb_true_iff in D2 as [D2 _].
    rewrite forallb_forall in D2. rewrite Entry_Intersects_sym.
    now apply negb_true_iff, D2.
Qed.

Lemma AddSafe_keeps_ns_disjoint (m m' : IdmapSet) (i : Entry) :
  Forall entry_ok (Idmap m) -> ns_disjoint (Idmap m) = true ->
  entry_ok i ->
  (List.length (filter (fun e => Entry_Intersects e i) (Idmap m)) <= 1)%nat ->
  AddSafe m i = (m', None) ->
  Forall entry_ok (Idmap m') /\ ns_disjoint (Idmap m') = true.
Proof.
  intros Ok D Hi One. unfold AddSafe.
  destruct (at_most_one_split _ _ One)
    as [None | [l1 [e [l2 [E [Fe [F1 F2]]]]]]].
  - pose proof (AddSafe_loop_skip i (Idmap m) [] [] false None) as L.
    rewrite app_nil_r in L. rewrite L. cbn [AddSafe_loop app negb].
    intros H. inversion H; subst m'. cbn [Idmap]. split.
    + apply Forall_app. split; [exact Ok | now constructor].
    + apply ns_disjoint_app. split; [exact D|]. split; [reflexivity|].
      intros a b Ha [<-|[]]. rewrite Forall_forall in None. now apply None.
  - rewrite E. rewrite (AddSafe_loop_skip i l1 (e :: l2) [] false F1).
    destruct (Entry_HostidsIntersect e i) eqn:HH.
    { cbn [AddSafe_loop]. rewrite Fe, HH. cbn [negb]. discriminate. }
    rewrite (AddSafe_loop_split i e l2 _ false Fe HH).
    pose proof (AddSafe_loop_skip i l2 [] (([] ++ l1) ++ split_pieces e i)
                  true F2) as L.
    rewrite app_nil_r in L. rewrite L. cbn [AddSafe_loop app negb].
    intros H. inversion H; subst m'. cbn [Idmap]. clear H L.
    rewrite E in Ok, D.
    apply Forall_app in Ok as [Ok1 Ok2].
    inversion Ok2 as [|? ? Oke Okl2]; subst.
    destruct (split_pieces_facts e i Oke Hi Fe) as [PF PD].
    rewrite Forall_forall in PF, Ok1, Okl2, F1, F2.
    assert (A1 : forall x p, In x l1 -> In p (split_pieces e i) ->
                             Entry_Intersects x p = false).
    { intros x p Hx Hp. destruct (PF p Hp) as [Okp [->|[In' _]]].
      - now apply F1.
      - apply (inside_apart x p e); auto.
        apply (ns_disjoint_pair _ e x l1 l2 D eq_refl).
        apply in_or_app. now left. }
    assert (A2 : forall p y, In p (split_pieces e i) -> In y l2 ->
                             Entry_Intersects p y = false).
    { intros p y Hp Hy. rewrite Entry_Intersects_sym.
      destruct (PF p Hp) as [Okp [->|[In' _]]].
      - now apply F2.
      - apply (inside_apart y p e); auto.
        apply (ns_disjoint_pair _ e y l1 l2 D eq_refl).
        apply in_or_app. now right. }
    apply ns_disjoint_app in D as [D1 [D2 D12]].
    cbn [ns_disjoint] in D2. apply andb_true_iff in D2 as [_ D2].
    split.
    + rewrite <- app_assoc. apply Forall_app. split; [now apply Forall_forall|].
      apply Forall_app. split; [|now apply Forall_forall].
      apply Forall_forall. intros p Hp. now destruct (PF p Hp).
    + rewrite <- app_assoc. apply ns_disjoint_app. split; [exact D1|].
      split.
      * apply ns_disjoint_app. split; [exact PD|]. split; [exact D2|exact A2].
      * intros a b Ha Hb. apply in_app_or in Hb as [Hb|Hb].
        -- now apply A1.
        -- apply D12; [exact Ha | now right].
Qed.

(** C1, amended: a successful AddSafe of an entry in the ID space that
    intersects at most one entry of the set, and a successful Append of a
    text that parses to an entry in the ID space, keep this invariant of a
    set: every entry is a non-empty range in the ID space, and no two
    entries that share a tag have overlapping namespace ranges. *)
Theorem successful_mutation_keeps_ns_disjoint
    (parse : string -> result Entry) (m m' : IdmapSet) (op : mutation) :
  Forall entry_ok (Idmap m) -> ns_disjoint (Idmap m) = true ->
  mutation_ok parse m op ->
  mutate parse m op = (m', None) ->
  Forall entry_ok (Idmap m') /\ ns_disjoint (Idmap m') = true.
Proof.
  intros Ok D Hop H. destruct op as [i|s]; cbn [mutate mutation_ok] in *.
  - destruct Hop as [Hi One]. eapply AddSafe_keeps_ns_disjoint; eauto.
  - destruct (Append_keeps_ns_disjoint parse m m' s D H) as [D' [e [P E]]].
    split; [|exact D']. rewrite E. apply Forall_app. split; [exact Ok|].
    constructor; [now apply Hop | constructor].
Qed.

Lemma successful_mutation_keeps_ns_disjoint_witness :
  let parse := fun _ : string => Err (Errorf "Bad idmap") in
  let m := mkIdmapSet [uidE 0 0 100; gidE 0 0 100] in
  let m' := mkIdmapSet [uidE 0 0 40; uidE 200 40 10; uidE 50 50 50;
                        gidE 0 0 100] in
  mutate parse m (MAddSafe (uidE 200 40 10)) = (m', None)
  /\ Forall entry_ok (Idmap m') /\ ns_disjoint (Idmap m') = true.
Proof.
  intros parse m m'.
  assert (R : mutate parse m (MAddSafe (uidE 200 40 10)) = (m', None))
    by (vm_compute; reflexivity).
  split; [exact R|].
  apply (successful_mutation_keeps_ns_disjoint parse m m'
           (MAddSafe (uidE 200 40 10))).
  - repeat constructor; unfold id_space; cbn; lia.
  - vm_compute; reflexivity.
  - split.
    + repeat split; unfold id_space; cbn; lia.
    + vm_compute. lia.
  - exact R.
Defined.

(** * Further properties of the operations *)

(** ** AddSafe *)

Lemma AddSafe_loop_Ok (i : Entry) (es : list Entry) :
  forall res added r a,
    AddSafe_loop i es res added = Ok (r, a) ->
    r = res ++ flat_map
                 (fun e => if Entry_Intersects e i then split_pieces e i
                           else [e]) es
    /\ a = added || existsb (fun e => Entry_Intersects e i) es.
Proof.
  induction es as [|e rest IH]; intros res added r a H.
  - cbn in H. inversion H; subst. cbn. now rewrite app_nil_r, orb_false_r.
  - cbn [flat_map existsb]. destruct (Entry_Intersects e i) eqn:EI.
    + destruct (Entry_HostidsIntersect e i) eqn:EH.
      * cbn [AddSafe_loop] in H. rewrite EI, EH in H. discriminate.
      * rewrite (AddSafe_loop_split i e rest res added EI EH) in H.
        apply IH in H as [-> ->]. rewrite <- app_assoc.
        now rewrite orb_true_r.
    + cbn [AddSafe_loop] in H. rewrite EI in H. cbn [negb] in H.
      apply IH in H as [-> ->]. now rewrite <- app_assoc.
Qed.

Lemma AddSafe_loop_no_collision (i : Entry) (es : list Entry) :
  forall res added,
    (forall e, In e es -> Entry_Intersects e i = true ->
               Entry_HostidsIntersect e i = false) ->
    exists r a, AddSafe_loop i es res added = Ok (r, a).
Proof.
  induction es as [|e rest IH]; intros res added H.
  - now exists res, added.
  - cbn [AddSafe_loop]. destruct (Entry_Intersects e i) eqn:EI; cbn [negb].
    + rewrite (H e (or_introl eq_refl) EI).
      apply IH. intros e' Hin. apply H. now right.
    + apply IH. intros e' Hin. apply H. now right.
Qed.

(** X1: AddSafe succeeds exactly when no entry of the set that intersects
    the new entry also meets its host range; the error it returns otherwise
    is ErrHostIDIsSubID, wherever in the set the colliding entry stands. *)
Theorem AddSafe_fails_iff_collision (m : IdmapSet) (i : Entry) :
  (snd (AddSafe m i) = None
   <-> forall e, In e (Idmap m) -> Entry_Intersects e i = true ->
                 Entry_HostidsIntersect e i = false)
  /\ (snd (AddSafe m i) <> None -> AddSafe m i = (m, Some ErrHostIDIsSubID)).
Proof.
  split; [split|].
  - intros H e Hin EI. destruct (Entry_HostidsIntersect e i) eqn:EH; [|reflexivity].
    rewrite (AddSafe_collision m i e Hin EI EH) in H. discriminate.
  - intros H. unfold AddSafe.
    destruct (AddSafe_loop_no_collision i (Idmap m) [] false H) as [r [a ->]].
    reflexivity.
  - unfold AddSafe.
    destruct (AddSafe_loop i (Idmap m) [] false) as [[r a]|err] eqn:E;
      cbn [snd]; [congruence|].
    intros _. apply AddSafe_loop_Err in E as [-> _]. reflexivity.
Qed.

Lemma AddSafe_Ok_result (m m' : IdmapSet) (i : Entry) :
  AddSafe m i = (m', None) -> Idmap m' = AddSafe_result (Idmap m) i.
Proof.
  unfold AddSafe, AddSafe_result.
  destruct (AddSafe_loop i (Idmap m) [] false) as [[r a]|err] eqn:E;
    [|discriminate].
  apply AddSafe_loop_Ok in E as [-> ->]. cbn [app orb].
  intros H. inversion H; subst m'. cbn [Idmap].
  destruct (existsb _ (Idmap m)); cbn [negb]; [now rewrite app_nil_r|reflexivity].
Qed.

(** X2: when AddSafe succeeds, the set it leaves holds, in the stored order,
    the pieces of every entry that intersects the new one in the place of
    that entry (the part below the new entry if it is not empty, the new
    entry, the part above it if it is not empty) and every other entry as it
    was; the new entry comes last when no entry intersects it. *)
Theorem AddSafe_success_form (m m' : IdmapSet) (i : Entry) :
  AddSafe m i = (m', None) -> Idmap m' = AddSafe_result (Idmap m) i.
Proof.
  unfold AddSafe. intros H.
  destruct (AddSafe_loop i (Idmap m) [] false) as [[r a]|err] eqn:E;
    [|discriminate].
  destruct (AddSafe_loop_Ok i (Idmap m) [] false r a E) as [Hr Ha].
  cbn [app orb] in Hr, Ha. subst r a.
  inversion H; subst m'. cbn [Idmap]. unfold AddSafe_result.
  destruct (existsb (fun e => Entry_Intersects e i) (Idmap m)); cbn [negb].
  - now rewrite app_nil_r.
  - reflexivity.
Qed.

Lemma AddSafe_success_form_witness :
  let m := mkIdmapSet [gidE 0 0 100; uidE 0 0 100] in
  AddSafe m (uidE 200 40 10)
  = (mkIdmapSet [gidE 0 0 100; uidE 0 0 40; uidE 200 40 10; uidE 50 50 50], None)
  /\ AddSafe_result (Idmap m) (uidE 200 40 10)
     = [gidE 0 0 100; uidE 0 0 40; uidE 200 40 10; uidE 50 50 50].
Proof.
  intros m.
  assert (R : AddSafe m (uidE 200 40 10)
              = (mkIdmapSet [gidE 0 0 100; uidE 0 0 40; uidE 200 40 10;
                             uidE 50 50 50], None))
    by (vm_compute; reflexivity).
  split; [exact R|].
  symmetry. exact (AddSafe_success_form m _ (uidE 200 40 10) R).
Defined.

Lemma covers_ns_ok (e : Entry) (x : Z) :
  entry_ok e ->
  covers_ns e x = true <-> Nsid e <= x < Nsid e + Maprange e.
Proof.
  unfold entry_ok, id_space, covers_ns. intros He.
  rewrite range_last_id by (unfold in_int64, min_int64, max_int64; lia).
  rewrite andb_true_iff, !Z.leb_le. lia.
Qed.

Lemma shiftFromNS_ok (e : Entry) (x : Z) :
  entry_ok e -> Nsid e <= x < Nsid e + Maprange e ->
  Entry_shiftFromNS e x = Ok (Hostid e + (x - Nsid e)).
Proof.
  intros He Hx. unfold Entry_shiftFromNS.
  pose proof (proj2 (covers_ns_ok e x He) Hx) as C. unfold covers_ns in C.
  rewrite C. unfold entry_ok, id_space in He.
  rewrite sub64_id, add64_id
    by (unfold in_int64, min_int64, max_int64; lia).
  reflexivity.
Qed.

Lemma shiftIntoNS_ok (e : Entry) (x : Z) :
  entry_ok e -> Hostid e <= x < Hostid e + Maprange e ->
  Entry_shiftIntoNS e x = Ok (Nsid e + (x - Hostid e)).
Proof.
  intros He Hx. unfold Entry_shiftIntoNS. unfold entry_ok, id_space in He.
  rewrite range_last_id by (unfold in_int64, min_int64, max_int64; lia).
  replace ((Hostid e <=? x) && (x <=? Hostid e + Maprange e - 1)) with true
    by (symmetry; apply andb_true_iff; rewrite !Z.leb_le; lia).
  rewrite sub64_id, add64_id
    by (unfold in_int64, min_int64, max_int64; lia).
  reflexivity.
Qed.



(** ** Shifting there and back *)

Lemma first_shift_found (how : string) (tag : Entry -> bool) (id : Z)
    (es : list Entry) :
  (exists e v, In e es /\ tag e = true /\ shift_how how e id = Ok v) ->
  exists e v, In e es /\ tag e = true /\ shift_how how e id = Ok v
              /\ first_shift how tag id es = v.
Proof.
  induction es as [|b es IH]; intros [e [v [Hin [T S]]]]; [destruct Hin|].
  cbn [first_shift]. destruct (tag b) eqn:Tb.
  - destruct (shift_how how b id) as [w|err] eqn:Sb.
    + exists b, w. repeat split; auto. now left.
    + destruct Hin as [->|Hin]; [congruence|].
      destruct IH as [e' [v' [Hin' [T' [S' F']]]]]; [now exists e, v|].
      exists e', v'. repeat split; auto. now right.
  - destruct Hin as [->|Hin]; [congruence|].
    destruct IH as [e' [v' [Hin' [T' [S' F']]]]]; [now exists e, v|].
    exists e', v'. repeat split; auto. now right.
Qed.

Lemma first_shift_at (how : string) (tag : Entry -> bool) (id v : Z)
    (l1 l2 : list Entry) (e : Entry) :
  (forall b, In b l1 -> tag b = true -> forall w, shift_how how b id = Ok w ->
             w = v) ->
  tag e = true -> shift_how how e id = Ok v ->
  first_shift how tag id (l1 ++ e :: l2) = v.
Proof.
  intros Hsame T S. induction l1 as [|b l1 IH]; cbn [app first_shift].
  - now rewrite T, S.
  - destruct (tag b) eqn:Tb.
    + destruct (shift_how how b id) as [w|err] eqn:Sb.
      * apply (Hsame b (or_introl eq_refl) Tb w Sb).
      * apply IH. intros b' Hin. apply Hsame. now right.
    + apply IH. intros b' Hin. apply Hsame. now right.
Qed.

Lemma hosts_disjoint_app (l1 l2 : list Entry) :
  hosts_disjoint (l1 ++ l2) = true
  <-> hosts_disjoint l1 = true /\ hosts_disjoint l2 = true
      /\ (forall a b, In a l1 -> In b l2 -> Entry_HostidsIntersect a b = false).
Proof.
  induction l1 as [|x l1 IH]; cbn [app hosts_disjoint].
  - split; [intros H; repeat split; auto; intros a b []|tauto].
  - rewrite !andb_true_iff, IH, !forallb_forall. split.
    + intros [Hx [H1 [H2 H12]]]. repeat split; auto.
      * intros y Hy. apply Hx, in_or_app. now left.
      * intros a b [<-|Ha] Hb; [|now apply H12].
        apply negb_true_iff, Hx, in_or_app. now right.
    + intros [[Hx H1] [H2 H12]]. repeat split; auto.
      * intros y Hy. apply in_app_or in Hy as [Hy|Hy]; [now apply Hx|].
        apply negb_true_iff, H12; [now left | exact Hy].
      * intros a b Ha Hb. apply H12; [now right | exact Hb].
Qed.

Lemma Entry_HostidsIntersect_sym (a b : Entry) :
  Entry_HostidsIntersect a b = Entry_HostidsIntersect b a.
Proof.
  unfold Entry_HostidsIntersect. now rewrite shared_tag_sym, ranges_overlap_sym.
Qed.

Lemma hosts_disjoint_pair (a b : Entry) (l1 l2 : list Entry) :
  hosts_disjoint (l1 ++ a :: l2) = true -> In b (l1 ++ l2) ->
  Entry_HostidsIntersect b a = false.
Proof.
  intros D Hb. apply hosts_disjoint_app in D as [D1 [D2 D12]].
  apply in_app_or in Hb as [Hb|Hb].
  - apply D12; [exact Hb | now left].
  - cbn [hosts_disjoint] in D2. apply andb_true_iff in D2 as [D2 _].
    rewrite forallb_forall in D2. rewrite Entry_HostidsIntersect_sym.
    now apply negb_true_iff, D2.
Qed.

Lemma Entry_HostidsIntersect_ok (a b : Entry) :
  entry_ok a -> entry_ok b ->
  Entry_HostidsIntersect a b = true
  <-> shared_tag a b = true /\ Hostid a < Hostid b + Maprange b
      /\ Hostid b < Hostid a + Maprange a.
Proof.
  unfold entry_ok, id_space. intros Ha Hb.
  unfold Entry_HostidsIntersect, ranges_overlap.
  rewrite !range_last_id
    by (unfold in_int64, min_int64, max_int64; lia).
  rewrite andb_true_iff, Z.leb_le.
  split; intros [H1 H2]; (split; [exact H1 | lia]).
Qed.

Lemma shiftFromNS_Ok_inv (e : Entry) (x v : Z) :
  entry_ok e -> Entry_shiftFromNS e x = Ok v ->
  Nsid e <= x < Nsid e + Maprange e /\ v = Hostid e + (x - Nsid e).
Proof.
  intros He H.
  assert (C : covers_ns e x = true).
  { unfold covers_ns. unfold Entry_shiftFromNS in H.
    destruct ((Nsid e <=? x) && (x <=? range_last (Nsid e) (Maprange e)));
      [reflexivity | discriminate]. }
  apply (covers_ns_ok e x He) in C. split; [exact C|].
  rewrite (shiftFromNS_ok e x He C) in H. now inversion H.
Qed.

Lemma shiftIntoNS_Ok_inv (e : Entry) (x v : Z) :
  entry_ok e -> Entry_shiftIntoNS e x = Ok v ->
  Hostid e <= x < Hostid e + Maprange e /\ v = Nsid e + (x - Hostid e).
Proof.
  intros He H.
  assert (C : Hostid e <= x < Hostid e + Maprange e).
  { unfold Entry_shiftIntoNS in H. unfold entry_ok, id_space in He.
    rewrite range_last_id in H
      by (unfold in_int64, min_int64, max_int64; lia).
    destruct (Z.leb_spec (Hostid e) x); [|discriminate].
    destruct (Z.leb_spec x (Hostid e + Maprange e - 1)); [|discriminate].
    lia. }
  split; [exact C|].
  rewrite (shiftIntoNS_ok e x He C) in H. now inversion H.
Qed.

Lemma entry_ok_nonneg_ids (e : Entry) : entry_ok e -> nonneg_ids e.
Proof. unfold entry_ok, id_space, nonneg_ids, max_int64. lia. Qed.

Lemma tag_shared (tag : Entry -> bool) (a b : Entry) :
  tag = Isuid \/ tag = Isgid -> tag a = true -> tag b = true ->
  shared_tag a b = true.
Proof.
  unfold shared_tag. intros [-> | ->] -> ->; [reflexivity | apply orb_true_r].
Qed.

(** One component, into the namespace and back. *)
Lemma first_shift_in_out (tag : Entry -> bool) (es : list Entry) (id : Z) :
  tag = Isuid \/ tag = Isgid ->
  Forall entry_ok es -> ns_disjoint es = true ->
  (exists e, In e es /\ tag e = true /\ Hostid e <= id < Hostid e + Maprange e) ->
  first_shift "out" tag (first_shift "in" tag id es) es = id.
Proof.
  intros Htag Ok D [e0 [Hin0 [T0 C0]]]. rewrite Forall_forall in Ok.
  destruct (first_shift_found "in" tag id es) as [e [v [Hin [T [S F]]]]].
  { exists e0, (Nsid e0 + (id - Hostid e0)). repeat split; auto.
    apply shiftIntoNS_ok; auto. }
  rewrite F. change (shift_how "in" e id) with (Entry_shiftIntoNS e id) in S.
  apply (shiftIntoNS_Ok_inv e id v (Ok e Hin)) in S as [C ->].
  destruct (in_split e es Hin) as [l1 [l2 E]]. rewrite E.
  apply first_shift_at; auto.
  - intros b Hb Tb w Sb. exfalso.
    change (shift_how "out" b (Nsid e + (id - Hostid e)))
      with (Entry_shiftFromNS b (Nsid e + (id - Hostid e))) in Sb.
    assert (Okb : entry_ok b)
      by (apply Ok; rewrite E; apply in_or_app; now left).
    apply (shiftFromNS_Ok_inv b _ w Okb) in Sb as [Cb _].
    assert (I : Entry_Intersects b e = true).
    { apply Entry_Intersects_ok; auto. split; [now apply (tag_shared tag)|].
      pose proof (Ok e Hin) as Oke. unfold entry_ok in Oke. lia. }
    rewrite (ns_disjoint_pair es e b l1 l2 D E) in I; [discriminate|].
    apply in_or_app. now left.
  - change (shift_how "out" e (Nsid e + (id - Hostid e)))
      with (Entry_shiftFromNS e (Nsid e + (id - Hostid e))).
    rewrite shiftFromNS_ok; auto; [f_equal; lia | lia].
Qed.

(** One component, out of the namespace and back. *)
Lemma first_shift_out_in (tag : Entry -> bool) (es : list Entry) (id : Z) :
  tag = Isuid \/ tag = Isgid ->
  Forall entry_ok es -> hosts_disjoint es = true ->
  (exists e, In e es /\ tag e = true /\ Nsid e <= id < Nsid e + Maprange e) ->
  first_shift "in" tag (first_shift "out" tag id es) es = id.
Proof.
  intros Htag Ok D [e0 [Hin0 [T0 C0]]]. rewrite Forall_forall in Ok.
  destruct (first_shift_found "out" tag id es) as [e [v [Hin [T [S F]]]]].
  { exists e0, (Hostid e0 + (id - Nsid e0)). repeat split; auto.
    apply shiftFromNS_ok; auto. }
  rewrite F. change (shift_how "out" e id) with (Entry_shiftFromNS e id) in S.
  apply (shiftFromNS_Ok_inv e id v (Ok e Hin)) in S as [C ->].
  destruct (in_split e es Hin) as [l1 [l2 E]]. rewrite E.
  apply first_shift_at; auto.
  - intros b Hb Tb w Sb. exfalso.
    change (shift_how "in" b (Hostid e + (id - Nsid e)))
      with (Entry_shiftIntoNS b (Hostid e + (id - Nsid e))) in Sb.
    assert (Okb : entry_ok b)
      by (apply Ok; rewrite E; apply in_or_app; now left).
    apply (shiftIntoNS_Ok_inv b _ w Okb) in Sb as [Cb _].
    assert (I : Entry_HostidsIntersect b e = true).
    { apply Entry_HostidsIntersect_ok; auto.
      split; [now apply (tag_shared tag)|].
      pose proof (Ok e Hin) as Oke. unfold entry_ok in Oke. lia. }
    rewrite E in D.
    rewrite (hosts_disjoint_pair e b l1 l2 D) in I; [discriminate|].
    apply in_or_app. now left.
  - change (shift_how "in" e (Hostid e + (id - Nsid e)))
      with (Entry_shiftIntoNS e (Hostid e + (id - Nsid e))).
    rewrite shiftIntoNS_ok; auto; [f_equal; lia | lia].
Qed.

Lemma doShiftIntoNs_ok (m : IdmapSet) (uid gid : Z) (how : string) :
  how = "in"%string \/ how = "out"%string -> Forall entry_ok (Idmap m) ->
  doShiftIntoNs m uid gid how
  = (first_shift how Isuid uid (Idmap m), first_shift how Isgid gid (Idmap m)).
Proof.
  intros Hhow Ok. rewrite doShiftIntoNs_first_final.
  assert (N : Forall nonneg_ids (Idmap m))
    by (eapply Forall_impl; [apply entry_ok_nonneg_ids | exact Ok]).
  now rewrite !first_final_shift_nonneg.
Qed.

(** X4: in a set of non-empty ranges in the ID space whose namespace ranges
    do not overlap on a shared tag, a host UID that some UID entry covers is
    given back by ShiftFromNs applied to what ShiftIntoNs makes of it, and
    the same holds for a host GID that some GID entry covers; whatever the
    other component is. *)
Theorem ShiftIntoNs_then_ShiftFromNs (m : IdmapSet) (uid gid : Z) :
  Forall entry_ok (Idmap m) -> ns_disjoint (Idmap m) = true ->
  ((exists e, In e (Idmap m) /\ Isuid e = true
              /\ Hostid e <= uid < Hostid e + Maprange e) ->
   forall g g', fst (ShiftFromNs m (fst (ShiftIntoNs m uid g)) g') = uid)
  /\ ((exists e, In e (Idmap m) /\ Isgid e = true
                 /\ Hostid e <= gid < Hostid e + Maprange e) ->
      forall u u', snd (ShiftFromNs m u' (snd (ShiftIntoNs m u gid))) = gid).
Proof.
  intros Ok D. unfold ShiftFromNs, ShiftIntoNs. split; intros C a b.
  - rewrite !doShiftIntoNs_ok by auto. cbn [fst].
    apply first_shift_in_out; auto.
  - rewrite !doShiftIntoNs_ok by auto. cbn [snd].
    apply first_shift_in_out; auto.
Qed.

Lemma ShiftIntoNs_then_ShiftFromNs_witness :
  let m := mkIdmapSet [bothE 100000 0 1000; uidE 200000 1000 10] in
  ShiftIntoNs m 200003 100500 = (1003, 500)
  /\ fst (ShiftFromNs m (fst (ShiftIntoNs m 200003 100500)) 0) = 200003.
Proof.
  intros m. split; [vm_compute; reflexivity|].
  assert (Ok : Forall entry_ok (Idmap m))
    by (repeat constructor; unfold id_space; cbn; lia).
  assert (D : ns_disjoint (Idmap m) = true) by (vm_compute; reflexivity).
  apply (proj1 (ShiftIntoNs_then_ShiftFromNs m 200003 0 Ok D)).
  exists (uidE 200000 1000 10). split; [right; now left|].
  split; [reflexivity | cbn; lia].
Defined.

(** X5: in a set of non-empty ranges in the ID space whose host ranges do
    not overlap on a shared tag, a namespace UID that some UID entry covers
    is given back by ShiftIntoNs applied to what ShiftFromNs makes of it, and
    the same holds for a namespace GID that some GID entry covers. *)
Theorem ShiftFromNs_then_ShiftIntoNs (m : IdmapSet) (uid gid : Z) :
  Forall entry_ok (Idmap m) -> hosts_disjoint (Idmap m) = true ->
  ((exists e, In e (Idmap m) /\ Isuid e = true
              /\ Nsid e <= uid < Nsid e + Maprange e) ->
   forall g g', fst (ShiftIntoNs m (fst (ShiftFromNs m uid g)) g') = uid)
  /\ ((exists e, In e (Idmap m) /\ Isgid e = true
                 /\ Nsid e <= gid < Nsid e + Maprange e) ->
      forall u u', snd (ShiftIntoNs m u' (snd (ShiftFromNs m u gid))) = gid).
Proof.
  intros Ok D. unfold ShiftFromNs, ShiftIntoNs. split; intros C a b.
  - rewrite !doShiftIntoNs_ok by auto. cbn [fst].
    apply first_shift_out_in; auto.
  - rewrite !doShiftIntoNs_ok by auto. cbn [snd].
    apply first_shift_out_in; auto.
Qed.

Lemma ShiftFromNs_then_ShiftIntoNs_witness :
  let m := mkIdmapSet [bothE 100000 0 1000; uidE 200000 1000 10] in
  ShiftFromNs m 1003 500 = (200003, 100500)
  /\ snd (ShiftIntoNs m 0 (snd (ShiftFromNs m 1003 500))) = 500.
Proof.
  intros m. split; [vm_compute; reflexivity|].
  assert (Ok : Forall entry_ok (Idmap m))
    by (repeat constructor; unfold id_space; cbn; lia).
  assert (D : hosts_disjoint (Idmap m) = true) by (vm_compute; reflexivity).
  apply (proj2 (ShiftFromNs_then_ShiftIntoNs m 1003 500 Ok D)).
  exists (bothE 100000 0 1000). split; [now left|].
  split; [reflexivity | cbn; lia].
Defined.

(** ** Equals *)

Lemma expand_fold (l : list Entry) :
  forall acc,
    fold_left
      (fun newEntries entry =>
         if Isuid entry && Isgid entry then
           (newEntries
              ++ [mkEntry true false (Hostid entry) (Nsid entry) (Maprange entry)])
              ++ [mkEntry false true (Hostid entry) (Nsid entry) (Maprange entry)]
         else newEntries ++ [entry]) l acc
    = acc ++ flat_map expand_entry l.
Proof.
  induction l as [|e l IH]; intros acc; cbn [fold_left flat_map].
  - now rewrite app_nil_r.
  - rewrite IH. unfold expand_entry. destruct (Isuid e && Isgid e);
      now rewrite <- !app_assoc.
Qed.

Lemma expandSortIdmap_Some {S : GoSort} (m : IdmapSet) :
  Idmap (expandSortIdmap (Some m))
  = sort_Sort Less (flat_map expand_entry (Idmap m)).
Proof. unfold expandSortIdmap. cbn [Idmap]. now rewrite expand_fold. Qed.

Lemma expandSortIdmap_None {S : GoSort} : Idmap (expandSortIdmap None) = [].
Proof.
  unfold expandSortIdmap. cbn.
  apply Permutation_nil. apply sort_Sort_perm.
Qed.

Lemma Equals_sym {S : GoSort} (a b : option IdmapSet) :
  Equals a b = Equals b a.
Proof.
  unfold Equals.
  destruct (Entries_eqb (Idmap (expandSortIdmap a)) (Idmap (expandSortIdmap b)))
    eqn:E1;
    destruct (Entries_eqb (Idmap (expandSortIdmap b)) (Idmap (expandSortIdmap a)))
      eqn:E2; try reflexivity.
  - apply Entries_eqb_eq in E1. rewrite E1 in E2.
    assert (T : Entries_eqb (Idmap (expandSortIdmap b))
                  (Idmap (expandSortIdmap b)) = true)
      by now apply Entries_eqb_eq.
    congruence.
  - apply Entries_eqb_eq in E2. rewrite E2 in E1.
    assert (T : Entries_eqb (Idmap (expandSortIdmap a))
                  (Idmap (expandSortIdmap a)) = true)
      by now apply Entries_eqb_eq.
    congruence.
Qed.

(** X6: with every sort that meets the contract of sort.Sort, Equals is an
    equivalence relation on possibly nil sets: every set is Equals to itself,
    the receiver and the argument can change places, and two sets that are
    Equals to a third one are Equals to each other. *)
Theorem Equals_is_an_equivalence (S : GoSort) :
  (forall m, Equals m m = true)
  /\ (forall a b, Equals a b = Equals b a)
  /\ (forall a b c, Equals a b = true -> Equals b c = true -> Equals a c = true).
Proof.
  split; [apply Equals_refl|]. split; [apply Equals_sym|].
  intros a b c. unfold Equals. rewrite !Entries_eqb_eq. congruence.
Qed.

Lemma expand_entry_not_nil (e : Entry) : expand_entry e <> [].
Proof. unfold expand_entry. destruct (Isuid e && Isgid e); discriminate. Qed.

(** X7: a set is Equals to the nil set exactly when it has no entry. *)
Theorem Equals_nil_iff_no_entry (S : GoSort) (m : IdmapSet) :
  (Equals (Some m) None = true <-> Idmap m = [])
  /\ (Equals None (Some m) = true <-> Idmap m = []).
Proof.
  assert (H : Equals (Some m) None = true <-> Idmap m = []).
  { unfold Equals. rewrite Entries_eqb_eq, expandSortIdmap_None,
      expandSortIdmap_Some. split.
    - intros E. pose proof (sort_Sort_perm Less (flat_map expand_entry (Idmap m)))
        as P. rewrite E in P. apply Permutation_sym, Permutation_nil in P.
      destruct (Idmap m) as [|e l]; [reflexivity|]. cbn [flat_map] in P.
      apply app_eq_nil in P as [P _]. now apply expand_entry_not_nil in P.
    - intros ->. cbn [flat_map]. apply Permutation_nil, sort_Sort_perm. }
  split; [exact H|]. now rewrite Equals_sym.
Qed.

(** X8: a set in which an entry for both UIDs and GIDs is replaced, where it
    stands, by the UID entry and the GID entry with its host ID, namespace ID
    and range is Equals to the set, whatever the other entries are and with
    every sort. *)
Theorem Equals_split_in_place (S : GoSort) (l1 l2 : list Entry) (h n r : Z) :
  Equals (Some (mkIdmapSet (l1 ++ bothE h n r :: l2)))
         (Some (mkIdmapSet (l1 ++ uidE h n r :: gidE h n r :: l2))) = true.
Proof.
  unfold Equals. apply Entries_eqb_eq. rewrite !expandSortIdmap_Some.
  cbn [Idmap]. f_equal. rewrite !flat_map_app. f_equal.
Qed.

(** X9: two sets that hold the same entries in different orders are Equals,
    provided no two of the expanded entries have the same tag and namespace
    ID; and two sets are only ever Equals when their expanded entries are
    the same up to order. *)
Theorem Equals_up_to_order (S : GoSort) (a b : IdmapSet) :
  (Permutation (Idmap a) (Idmap b) ->
   total_on Less (flat_map expand_entry (Idmap a)) ->
   Equals (Some a) (Some b) = true)
  /\ (Equals (Some a) (Some b) = true ->
      Permutation (flat_map expand_entry (Idmap a))
                  (flat_map expand_entry (Idmap b))).
Proof.
  split.
  - intros P T. unfold Equals. apply Entries_eqb_eq.
    rewrite !expandSortIdmap_Some.
    rewrite (sort_Sort_unique Less _ _ Less_strict_weak T (Permutation_refl _)).
    rewrite (sort_Sort_unique Less _ (flat_map expand_entry (Idmap b))
               Less_strict_weak T); [reflexivity|].
    now apply Permutation_flat_map.
  - unfold Equals. rewrite Entries_eqb_eq, !expandSortIdmap_Some. intros E.
    rewrite (sort_Sort_perm Less (flat_map expand_entry (Idmap a))), E.
    apply Permutation_sym, sort_Sort_perm.
Qed.

Lemma Equals_up_to_order_witness :
  let a := mkIdmapSet [bothE 100000 0 1000; uidE 200000 1000 10] in
  let b := mkIdmapSet [uidE 200000 1000 10; bothE 100000 0 1000] in
  @Equals tie_reversing_GoSort (Some a) (Some b) = true.
Proof.
  intros a b.
  apply (proj1 (Equals_up_to_order tie_reversing_GoSort a b)).
  - apply perm_swap.
  - intros x y [<-|[<-|[<-|[]]]] [<-|[<-|[<-|[]]]]; auto.
Defined.

(** ** ValidRanges *)

Lemma extend_range_length (e : Entry) (ranges : list IDRange) :
  forall rs, extend_range e ranges = Some rs ->
             List.length rs = List.length ranges /\ ranges <> [].
Proof.
  induction ranges as [|r rest IH]; intros rs; cbn [extend_range].
  - discriminate.
  - destruct (negb (Bool.eqb (Isuid e) (rIsuid r))
              || negb (Bool.eqb (Isgid e) (rIsgid r))).
    + destruct (extend_range e rest) as [rs'|]; [|discriminate].
      cbn. intros [= <-]. destruct (IH rs' eq_refl) as [L _].
      split; [cbn; now rewrite L | discriminate].
    + destruct (add64 (Endid r) 1 =? Nsid e).
      * intros [= <-]. split; [reflexivity | discriminate].
      * destruct (extend_range e rest) as [rs'|]; [|discriminate].
        cbn. intros [= <-]. destruct (IH rs' eq_refl) as [L _].
        split; [cbn; now rewrite L | discriminate].
Qed.

Lemma ValidRanges_step_length (ranges : list IDRange) (e : Entry) :
  (List.length ranges <= List.length (ValidRanges_step ranges e)
   <= S (List.length ranges))%nat
  /\ ValidRanges_step ranges e <> [].
Proof.
  unfold ValidRanges_step. destruct (extend_range e ranges) as [rs|] eqn:E.
  - destruct (extend_range_length e ranges rs E) as [L N]. split; [lia|].
    destruct rs; [|discriminate]. destruct ranges; [now elim N | discriminate].
  - rewrite length_app. cbn. split; [lia|].
    destruct ranges; discriminate.
Qed.

Lemma ValidRanges_fold_length (l : list Entry) :
  forall acc,
    (List.length acc <= List.length (fold_left ValidRanges_step l acc)
     <= List.length acc + List.length l)%nat
    /\ (fold_left ValidRanges_step l acc = [] -> acc = [] /\ l = []).
Proof.
  induction l as [|e l IH]; intros acc; cbn [fold_left List.length].
  - split; [lia | auto].
  - destruct (IH (ValidRanges_step acc e)) as [L N].
    destruct (ValidRanges_step_length acc e) as [L1 N1].
    split; [lia|]. intros E. destruct (N E) as [E1 _]. now elim N1.
Qed.

(** X10: ValidRanges never fails; it returns at most as many ranges as the
    set has entries, and no range at all exactly when the set has no
    entry. *)
Theorem ValidRanges_count (S : GoSort) (m : IdmapSet) :
  exists ranges,
    ValidRanges m = Ok ranges
    /\ (List.length ranges <= List.length (Idmap m))%nat
    /\ (ranges = [] <-> Idmap m = []).
Proof.
  unfold ValidRanges, util_DeepCopy. cbn [Idmap].
  eexists. split; [reflexivity|].
  pose proof (sort_Sort_perm Less (Idmap m)) as P.
  destruct (ValidRanges_fold_length (sort_Sort Less (Idmap m)) []) as [L N].
  split.
  - rewrite (Permutation_length P). cbn in L. lia.
  - split.
    + intros E. destruct (N E) as [_ E']. rewrite E' in P.
      now apply Permutation_sym, Permutation_nil in P.
    + intros E. rewrite E in *. apply Permutation_nil in P. now rewrite P.
Qed.

Lemma extend_range_cover (e : Entry) (ranges : list IDRange) :
  entry_ok e -> Forall range_ok ranges ->
  forall rs, extend_range e ranges = Some rs ->
    Forall range_ok rs
    /\ forall u g x,
         (exists r, In r rs /\ in_range u g x r)
         <-> (exists r, In r ranges /\ in_range u g x r) \/ in_entry u g x e.
Proof.
  intros Oe. induction ranges as [|r rest IH]; intros Or rs;
    cbn [extend_range]; [discriminate|].
  inversion Or as [|? ? Or1 Or2]; subst.
  assert (Skip : forall rs',
             extend_range e rest = Some rs' ->
             Forall range_ok (r :: rs')
             /\ forall u g x,
                  (exists r0, In r0 (r :: rs') /\ in_range u g x r0)
                  <-> (exists r0, In r0 (r :: rest) /\ in_range u g x r0)
                      \/ in_entry u g x e).
  { intros rs' E. destruct (IH Or2 rs' E) as [F C]. split; [now constructor|].
    intros u g x. split.
    - intros [r0 [[<-|I] R]].
      + left. exists r. split; [now left | exact R].
      + destruct (proj1 (C u g x) (ex_intro _ r0 (conj I R))) as [[r1 [I1 R1]]|Q].
        * left. exists r1. split; [now right | exact R1].
        * now right.
    - intros [[r0 [[<-|I] R]]|Q].
      + exists r. split; [now left | exact R].
      + destruct (proj2 (C u g x) (or_introl (ex_intro _ r0 (conj I R))))
          as [r1 [I1 R1]].
        exists r1. split; [now right | exact R1].
      + destruct (proj2 (C u g x) (or_intror Q)) as [r1 [I1 R1]].
        exists r1. split; [now right | exact R1]. }
  destruct (negb (Bool.eqb (Isuid e) (rIsuid r))
            || negb (Bool.eqb (Isgid e) (rIsgid r))) eqn:T.
  { destruct (extend_range e rest) as [rs'|]; [|discriminate].
    cbn. intros [= <-]. now apply Skip. }
  destruct (add64 (Endid r) 1 =? Nsid e) eqn:A.
  2:{ destruct (extend_range e rest) as [rs'|]; [|discriminate].
      cbn. intros [= <-]. now apply Skip. }
  intros [= <-].
  apply Bool.orb_false_iff in T as [T1 T2].
  apply Bool.negb_false_iff, Bool.eqb_prop in T1.
  apply Bool.negb_false_iff, Bool.eqb_prop in T2.
  destruct Or1 as [[R0 R1] R2]. destruct Oe as [_ [E1 [E2 [_ E3]]]].
  unfold id_space in *.
  rewrite add64_id in A by (unfold in_int64, min_int64, max_int64; lia).
  apply Z.eqb_eq in A.
  rewrite add64_id by (unfold in_int64, min_int64, max_int64; lia).
  split.
  - constructor; [|exact Or2]. unfold range_ok, id_space. cbn. lia.
  - intros u g x. unfold in_range, in_entry. split.
    + intros [r0 [[<-|I] [Q1 [Q2 Q3]]]].
      * cbn in Q1, Q2, Q3. destruct (Z_le_gt_dec x (Endid r)).
        -- left. exists r. split; [now left|]. repeat split; try assumption; lia.
        -- right. repeat split; try congruence; lia.
      * left. exists r0. split; [now right | auto].
    + intros [[r0 [[<-|I] [Q1 [Q2 Q3]]]]|[Q1 [Q2 Q3]]].
      * eexists. split; [now left|]. cbn. repeat split; try assumption; lia.
      * exists r0. split; [now right | auto].
      * eexists. split; [now left|]. cbn. repeat split; try congruence; lia.
Qed.

Lemma ValidRanges_step_cover (ranges : list IDRange) (e : Entry) :
  entry_ok e -> Forall range_ok ranges ->
  Forall range_ok (ValidRanges_step ranges e)
  /\ forall u g x,
       (exists r, In r (ValidRanges_step ranges e) /\ in_range u g x r)
       <-> (exists r, In r ranges /\ in_range u g x r) \/ in_entry u g x e.
Proof.
  intros Oe Or. unfold ValidRanges_step.
  destruct (extend_range e ranges) as [rs|] eqn:E.
  - now apply (extend_range_cover e ranges).
  - pose proof Oe as [_ [E1 [E2 [_ E3]]]]. unfold id_space in *.
    rewrite add64_id by (unfold in_int64, min_int64, max_int64; lia).
    rewrite sub64_id by (unfold in_int64, min_int64, max_int64; lia).
    split.
    + apply Forall_app. split; [exact Or|]. constructor; [|constructor].
      unfold range_ok, id_space. cbn. lia.
    + intros u g x. unfold in_range, in_entry. split.
      * intros [r [I R]]. apply in_app_iff in I as [I|[<-|[]]].
        -- left. now exists r.
        -- right. cbn in R. destruct R as [Q1 [Q2 Q3]].
           repeat split; try assumption; lia.
      * intros [[r [I R]]|[Q1 [Q2 Q3]]].
        -- exists r. split; [apply in_app_iff; now left | exact R].
        -- eexists. split; [apply in_app_iff; right; now left|]. cbn.
           repeat split; try assumption; lia.
Qed.

Lemma ValidRanges_fold_cover (l : list Entry) :
  Forall entry_ok l ->
  forall acc, Forall range_ok acc ->
    Forall range_ok (fold_left ValidRanges_step l acc)
    /\ forall u g x,
         (exists r, In r (fold_left ValidRanges_step l acc) /\ in_range u g x r)
         <-> (exists r, In r acc /\ in_range u g x r)
             \/ (exists e, In e l /\ in_entry u g x e).
Proof.
  induction 1 as [|e l Oe Ol IH]; intros acc Oa; cbn [fold_left].
  - split; [exact Oa|]. intros u g x. split; [now left|].
    intros [Q|[e [[] _]]]. exact Q.
  - destruct (ValidRanges_step_cover acc e Oe Oa) as [F C].
    destruct (IH _ F) as [F' C']. split; [exact F'|].
    intros u g x. rewrite C', C. split.
    + intros [[Q|Q]|[e' [I Q]]].
      * now left.
      * right. exists e. split; [now left | exact Q].
      * right. exists e'. split; [now right | exact Q].
    + intros [Q|[e' [[<-|I] Q]]].
      * left. now left.
      * left. now right.
      * right. now exists e'.
Qed.

(** X11: for a set whose entries are not empty and lie in the 32-bit ID
    space, ValidRanges returns ranges that are not empty and lie in the ID
    space, and a namespace ID of a kind lies in one of the ranges exactly
    when it lies in the namespace range of an entry of that kind: merging
    neither loses nor invents an ID, with every sort. *)
Theorem ValidRanges_covers_the_entries (S : GoSort) (m : IdmapSet) :
  Forall entry_ok (Idmap m) ->
  exists ranges,
    ValidRanges m = Ok ranges
    /\ Forall range_ok ranges
    /\ forall u g x,
         (exists r, In r ranges /\ in_range u g x r)
         <-> (exists e, In e (Idmap m) /\ in_entry u g x e).
Proof.
  intros O. unfold ValidRanges, util_DeepCopy. cbn [Idmap].
  eexists. split; [reflexivity|].
  pose proof (sort_Sort_perm Less (Idmap m)) as P.
  assert (O' : Forall entry_ok (sort_Sort Less (Idmap m))).
  { apply Forall_forall. intros e I. apply (proj1 (Forall_forall _ _) O).
    apply (Permutation_in _ (Permutation_sym P) I). }
  destruct (ValidRanges_fold_cover _ O' [] (Forall_nil _)) as [F C].
  split; [exact F|]. intros u g x. rewrite C. split.
  - intros [[r [[] _]]|[e [I Q]]]. exists e. split; [|exact Q].
    apply (Permutation_in _ (Permutation_sym P) I).
  - intros [e [I Q]]. right. exists e. split; [|exact Q].
    apply (Permutation_in _ P I).
Qed.

Lemma ValidRanges_covers_the_entries_witness :
  let m := mkIdmapSet [uidE 100000 10 5; gidE 100000 0 10; uidE 200000 0 10] in
  Forall entry_ok (Idmap m)
  /\ exists ranges,
       @ValidRanges tie_reversing_GoSort m = Ok ranges
       /\ Forall range_ok ranges
       /\ forall u g x,
            (exists r, In r ranges /\ in_range u g x r)
            <-> (exists e, In e (Idmap m) /\ in_entry u g x e).
Proof.
  intros m.
  assert (O : Forall entry_ok (Idmap m)).
  { repeat constructor; cbn; unfold id_space; lia. }
  split; [exact O|].
  exact (ValidRanges_covers_the_entries tie_reversing_GoSort m O).
Defined.

(** ** Usable *)

(** X12: Usable returns no error exactly when every entry of the set is
    usable, and the error it returns is the one of the first entry, in
    stored order, that is not. *)
Theorem Usable_returns_first_error (Entry_Usable : Entry -> option error)
    (m : IdmapSet) :
  (Usable Entry_Usable m = None
   <-> forall e, In e (Idmap m) -> Entry_Usable e = None)
  /\ (forall err,
        Usable Entry_Usable m = Some err ->
        exists l1 e l2,
          Idmap m = l1 ++ e :: l2
          /\ (forall b, In b l1 -> Entry_Usable b = None)
          /\ Entry_Usable e = Some err).
Proof.
  unfold Usable. induction (Idmap m) as [|e l [IH1 IH2]]; cbn [Usable_loop].
  - split; [split; [intros _ e [] | reflexivity] | discriminate].
  - destruct (Entry_Usable e) as [err0|] eqn:U.
    + split.
      * split; [discriminate|]. intros H.
        rewrite (H e (or_introl eq_refl)) in U. discriminate.
      * intros err [= <-]. exists [], e, l. split; [reflexivity|].
        split; [intros b [] | exact U].
    + split.
      * rewrite IH1. split.
        -- intros H b [<-|I]; [exact U | now apply H].
        -- intros H b I. apply H. now right.
      * intros err H. destruct (IH2 err H) as [l1 [b [l2 [E [N F]]]]].
        exists (e :: l1), b, l2. split; [cbn; now rewrite E|].
        split; [|exact F]. intros c [<-|I]; [exact U | now apply N].
Qed.

(** ** ToLxcString *)

Lemma ToLxcString_entry_spec (vis : string -> list string -> bool)
    (ls : list string) :
  (forall k l, vis k l = true <-> In k l) ->
  forall lines,
    NoDup lines ->
    NoDup (ToLxcString_entry vis lines ls)
    /\ (forall l, In l (ToLxcString_entry vis lines ls)
                  <-> In l lines \/ In l ls)
    /\ (NoDup (lines ++ ls) -> ToLxcString_entry vis lines ls = lines ++ ls).
Proof.
  intros V. unfold ToLxcString_entry.
  induction ls as [|x ls IH]; intros lines N; cbn [fold_left].
  - split; [exact N|]. split; [|now rewrite app_nil_r].
    intros l. split; [now left | intros [H|[]]; exact H].
  - destruct (vis x lines) eqn:M; cbn [negb].
    + apply V in M. destruct (IH lines N) as [N' [I' E']].
      split; [exact N'|]. split.
      * intros l. rewrite I'. split.
        -- intros [H|H]; [now left | right; now right].
        -- intros [H|[<-|H]]; [now left | now left | now right].
      * intros D. exfalso. apply NoDup_remove_2 in D. apply D.
        apply in_app_iff. now left.
    + assert (NI : ~ In x lines).
      { intros I. apply V in I. congruence. }
      assert (N1 : NoDup (lines ++ [x])).
      { apply NoDup_app; [exact N | repeat constructor; intros [] |].
        intros a Ia [<-|[]]. exact (NI Ia). }
      destruct (IH _ N1) as [N' [I' E']].
      split; [exact N'|]. split.
      * intros l. rewrite I', in_app_iff. cbn. tauto.
      * intros D. rewrite <- app_assoc in E'. cbn in E'. now apply E'.
Qed.

Lemma ToLxcString_fold_spec (f : Entry -> list string)
    (vis : string -> list string -> bool) (es : list Entry) :
  (forall k l, vis k l = true <-> In k l) ->
  forall lines,
    NoDup lines ->
    let out :=
      fold_left (fun lines e => ToLxcString_entry vis lines (f e)) es lines in
    NoDup out
    /\ (forall l, In l out <-> In l lines \/ exists e, In e es /\ In l (f e))
    /\ (NoDup (lines ++ flat_map f es) -> out = lines ++ flat_map f es).
Proof.
  intros V. induction es as [|e es IH]; intros lines N; cbn [fold_left flat_map].
  - split; [exact N|]. split; [|now rewrite app_nil_r].
    intros l. split; [now left|]. intros [H|[e [[] _]]]. exact H.
  - destruct (ToLxcString_entry_spec vis (f e) V lines N) as [N1 [I1 E1]].
    destruct (IH _ N1) as [N' [I' E']].
    split; [exact N'|]. split.
    + intros l. rewrite I', I1. split.
      * intros [[H|H]|[b [Ib H]]]; [now left | |].
        -- right. exists e. split; [now left | exact H].
        -- right. exists b. split; [now right | exact H].
      * intros [H|[b [[<-|Ib] H]]]; [tauto | tauto |].
        right. now exists b.
    + intros D. rewrite app_assoc in D.
      rewrite E1 in E' |- *.
      * rewrite E' by exact D. now rewrite app_assoc.
      * apply NoDup_app_remove_r in D. exact D.
      * apply NoDup_app_remove_r in D. exact D.
Qed.

(** X13: with a ValueInSlice that tells whether the value is in the slice,
    ToLxcString returns no line twice; a line is returned exactly when it is
    a line of some entry of the set; and when no line comes twice among the
    lines of the entries, the result is these lines in stored order. *)
Theorem ToLxcString_lists_each_line_once (f : Entry -> list string)
    (vis : string -> list string -> bool) (m : IdmapSet) :
  (forall k l, vis k l = true <-> In k l) ->
  NoDup (ToLxcString f vis m)
  /\ (forall l, In l (ToLxcString f vis m)
                <-> exists e, In e (Idmap m) /\ In l (f e))
  /\ (NoDup (flat_map f (Idmap m)) ->
      ToLxcString f vis m = flat_map f (Idmap m)).
Proof.
  intros V. unfold ToLxcString.
  destruct (ToLxcString_fold_spec f vis (Idmap m) V [] (NoDup_nil _))
    as [N [I E]].
  split; [exact N|]. split; [|exact E].
  intros l. rewrite I. split; [|now right]. intros [[]|H]. exact H.
Qed.

Lemma ToLxcString_lists_each_line_once_witness :
  let vis := fun k l => existsb (String.eqb k) l in
  let f := fun e : Entry =>
             if Isuid e then ["u"%string; "both"%string]
             else ["g"%string; "both"%string] in
  let m := mkIdmapSet [uidE 100000 0 10; gidE 100000 0 10] in
  (forall k l, vis k l = true <-> In k l)
  /\ ToLxcString f vis m = ["u"%string; "both"%string; "g"%string]
  /\ NoDup (ToLxcString f vis m).
Proof.
  intros vis f m.
  assert (V : forall k l, vis k l = true <-> In k l).
  { intros k l. unfold vis. rewrite existsb_exists. split.
    - intros [x [I E]]. apply String.eqb_eq in E. now subst.
    - intros I. exists k. split; [exact I | apply String.eqb_refl]. }
  split; [exact V|]. split; [reflexivity|].
  exact (proj1 (ToLxcString_lists_each_line_once f vis m V)).
Defined.

(** ** AddSafe and the set-level queries *)

Lemma HostidsIntersect_loop_false (i : Entry) (es : list Entry) :
  HostidsIntersect_loop i es = false
  <-> Forall (fun e => Entry_HostidsIntersect i e = false) es.
Proof.
  induction es as [|e es IH]; cbn.
  - split; [constructor | reflexivity].
  - destruct (Entry_HostidsIntersect i e) eqn:E.
    + split; [discriminate|]. intros H. inversion H; congruence.
    + rewrite IH. split; [now constructor | intros H; now inversion H].
Qed.

(** X14: when Intersects finds no entry of the set that intersects the new
    one, AddSafe puts the new entry at the end of the set and changes
    nothing else, which is what Append does with a text that parses to the
    entry; and when HostidsIntersect finds no entry whose host range meets
    the one of the new entry, AddSafe does not fail. *)
Theorem AddSafe_without_intersection (parse : string -> result Entry)
    (m : IdmapSet) (i : Entry) (s : string) :
  (Intersects m i = false ->
   AddSafe m i = (mkIdmapSet (Idmap m ++ [i]), None)
   /\ (parse s = Ok i -> Append parse m s = AddSafe m i))
  /\ (HostidsIntersect m i = false -> snd (AddSafe m i) = None).
Proof.
  split.
  - intros H.
    assert (A : AddSafe m i = (mkIdmapSet (Idmap m ++ [i]), None)).
    { unfold Intersects in H. apply Intersects_loop_false in H.
      unfold AddSafe.
      rewrite <- (app_nil_r (Idmap m)) at 1.
      rewrite AddSafe_loop_skip.
      - reflexivity.
      - eapply Forall_impl; [|exact H]. intros e E.
        now rewrite Entry_Intersects_sym. }
    split; [exact A|]. intros P. unfold Append. now rewrite P, H, A.
  - intros H. unfold HostidsIntersect in H.
    apply HostidsIntersect_loop_false in H.
    destruct (AddSafe_loop_no_collision i (Idmap m) [] false) as [r [a E]].
    + intros e I _. rewrite Entry_HostidsIntersect_sym.
      exact (proj1 (Forall_forall _ _) H e I).
    + unfold AddSafe. now rewrite E.
Qed.

(** ** The two orders *)

(** X15: Less and the Less of ByHostID are strict weak orders, as sort.Sort
    asks for. Less puts an entry with the UID flag before an entry without
    it, and leaves two entries unordered exactly when they have the same
    two flags and the same namespace ID; the Less of ByHostID leaves two
    entries unordered exactly when they have the same host ID. *)
Theorem Less_orders :
  strict_weak Less /\ strict_weak ByHostID_Less
  /\ (forall a b, Isuid a = true -> Isuid b = false -> Less a b = true)
  /\ (forall a b,
        tied Less a b = true
        <-> Isuid a = Isuid b /\ Isgid a = Isgid b /\ Nsid a = Nsid b)
  /\ (forall a b, tied ByHostID_Less a b = true <-> Hostid a = Hostid b).
Proof.
  split; [apply Less_strict_weak|]. split; [apply ByHostID_Less_strict_weak|].
  split; [|split].
  - intros a b Ha Hb. unfold Less. now rewrite Ha, Hb.
  - intros [ua ga ha na ra] [ub gb hb nb rb]. unfold tied, Less. cbn.
    destruct ua, ga, ub, gb; cbn;
      try (split; [discriminate | intros [? [? ?]]; discriminate]);
      (split;
       [ intros H; apply andb_true_iff in H as [H1 H2];
         apply negb_true_iff, Z.ltb_ge in H1;
         apply negb_true_iff, Z.ltb_ge in H2;
         split; [reflexivity|]; split; [reflexivity | lia]
       | intros [_ [_ ->]]; now rewrite Z.ltb_irrefl ]).
  - intros a b. unfold tied, ByHostID_Less. split.
    + intros H. apply andb_true_iff in H as [H1 H2].
      apply negb_true_iff, Z.ltb_ge in H1.
      apply negb_true_iff, Z.ltb_ge in H2. lia.
    + intros ->. now rewrite Z.ltb_irrefl.
Qed.

(** ** JSONUnmarshal *)

(** X16: JSONUnmarshal never returns a set without entries: when it returns
    a set, the set holds the decoded entries, of which there is at least
    one, and there is no error; when it returns an error, it is the error of
    the decoder and the set is nil; and it returns nil without an error
    exactly when the text decodes to no entry. *)
Theorem JSONUnmarshal_outcomes (J : GoJSON) (s : string) :
  (forall m,
      fst (JSONUnmarshal s) = Some m ->
      Idmap m <> [] /\ snd (JSONUnmarshal s) = None
      /\ json_Unmarshal s = Ok (Idmap m))
  /\ (forall err,
        snd (JSONUnmarshal s) = Some err ->
        fst (JSONUnmarshal s) = None /\ json_Unmarshal s = Err err)
  /\ (JSONUnmarshal s = (None, None) <-> json_Unmarshal s = Ok []).
Proof.
  unfold JSONUnmarshal. destruct (json_Unmarshal s) as [[|e l]|err0];
    cbn [List.length Nat.eqb fst snd].
  - split; [discriminate|]. split; [discriminate|]. split; reflexivity.
  - split; [|split].
    + intros m [= <-]. cbn [Idmap]. split; [discriminate|].
      split; reflexivity.
    + discriminate.
    + split; discriminate.
  - split; [discriminate|]. split.
    + intros err [= <-]. split; reflexivity.
    + split; discriminate.
Qed.

(** ** Swap *)

Lemma set_index_length (n : nat) (v : Entry) (s : list Entry) :
  List.length (set_index n v s) = List.length s.
Proof.
  revert n. induction s as [|x s IH]; intros [|n]; cbn; auto.
Qed.

Lemma set_index_same (n : nat) (v : Entry) (s : list Entry) :
  (n < List.length s)%nat -> nth_error (set_index n v s) n = Some v.
Proof.
  revert n. induction s as [|x s IH]; intros [|n] H; cbn in *; try lia; auto.
  apply IH. lia.
Qed.

Lemma set_index_other (n k : nat) (v : Entry) (s : list Entry) :
  k <> n -> nth_error (set_index n v s) k = nth_error s k.
Proof.
  revert n k. induction s as [|x s IH]; intros [|n] [|k] H; cbn; auto;
    try congruence.
Qed.

Lemma set_index_perm (n : nat) (a v : Entry) (s : list Entry) :
  nth_error s n = Some a -> Permutation (a :: set_index n v s) (v :: s).
Proof.
  revert n. induction s as [|x s IH]; intros [|n] H; cbn in *; try discriminate.
  - inversion H; subst. apply perm_swap.
  - rewrite perm_swap. rewrite (IH n H). apply perm_swap.
Qed.

Lemma at_index_Some (s : list Entry) (i : Z) (e : Entry) :
  at_index s i = Some e
  <-> 0 <= i < Z.of_nat (List.length s) /\ nth_error s (Z.to_nat i) = Some e.
Proof.
  unfold at_index. destruct (Z.leb_spec 0 i); cbn [andb].
  - destruct (Z.ltb_spec i (Z.of_nat (List.length s))).
    + split; [intros N; split; [lia | exact N] | now intros [_ N]].
    + split; [discriminate | intros [N _]; lia].
  - split; [discriminate | intros [N _]; lia].
Qed.

Lemma at_index_None (s : list Entry) (i : Z) :
  at_index s i = None <-> ~ 0 <= i < Z.of_nat (List.length s).
Proof.
  unfold at_index. destruct (Z.leb_spec 0 i); cbn [andb].
  - destruct (Z.ltb_spec i (Z.of_nat (List.length s))).
    + split.
      * intros N. apply nth_error_None in N. lia.
      * intros N. exfalso. apply N. lia.
    + split; [intros _; lia | reflexivity].
  - split; [intros _; lia | reflexivity].
Qed.

Lemma at_index_set_same (s : list Entry) (i : Z) (v : Entry) :
  0 <= i < Z.of_nat (List.length s) ->
  at_index (set_index (Z.to_nat i) v s) i = Some v.
Proof.
  intros H. apply at_index_Some. rewrite set_index_length. split; [exact H|].
  apply set_index_same. lia.
Qed.

Lemma at_index_set_other (s : list Entry) (i k : Z) (v : Entry) :
  0 <= i -> k <> i -> at_index (set_index (Z.to_nat i) v s) k = at_index s k.
Proof.
  intros Hi H. unfold at_index. rewrite set_index_length.
  destruct ((0 <=? k) && (k <? Z.of_nat (List.length s))) eqn:B; [|reflexivity].
  apply andb_true_iff in B as [B _]. apply Z.leb_le in B.
  apply set_index_other. lia.
Qed.

Lemma at_index_ext (s t : list Entry) :
  List.length s = List.length t ->
  (forall k, at_index s k = at_index t k) -> s = t.
Proof.
  intros L H. apply nth_error_ext. intros n.
  destruct (Nat.lt_ge_cases n (List.length s)) as [N|N].
  - specialize (H (Z.of_nat n)). unfold at_index in H. rewrite <- L in H.
    replace ((0 <=? Z.of_nat n) && (Z.of_nat n <? Z.of_nat (List.length s)))
      with true in H
      by (symmetry; apply andb_true_iff; rewrite Z.leb_le, Z.ltb_lt; lia).
    now rewrite Nat2Z.id in H.
  - rewrite (proj2 (nth_error_None s n) N).
    symmetry. apply nth_error_None. lia.
Qed.

(** X17: Swap panics exactly when one of the two indices is out of range.
    Otherwise the set keeps its length and holds the same entries up to
    order; the entries at the two indices have changed places, every other
    index holds what it held; and a second Swap of the same indices gives
    the set back. *)
Theorem Swap_exchanges_two_entries (m : IdmapSet) (i j : Z) :
  (Swap m i j = None <-> ~ (0 <= i < Len m /\ 0 <= j < Len m))
  /\ forall m',
       Swap m i j = Some m' ->
       Len m' = Len m
       /\ Permutation (Idmap m) (Idmap m')
       /\ at_index (Idmap m') i = at_index (Idmap m) j
       /\ at_index (Idmap m') j = at_index (Idmap m) i
       /\ (forall k, k <> i -> k <> j ->
                     at_index (Idmap m') k = at_index (Idmap m) k)
       /\ Swap m' i j = Some m.
Proof.
  destruct m as [s]. unfold Swap, Len. cbn [Idmap]. split.
  - destruct (at_index s j) as [ej|] eqn:Ej.
    + destruct (at_index s i) as [ei|] eqn:Ei.
      * apply at_index_Some in Ej as [Hj _]. apply at_index_Some in Ei as [Hi _].
        split; [discriminate | intros H; exfalso; apply H; lia].
      * apply at_index_None in Ei. split; [intros _; lia | reflexivity].
    + apply at_index_None in Ej. split; [intros _; lia | reflexivity].
  - intros m'. destruct (at_index s j) as [ej|] eqn:Ej; [|discriminate].
    destruct (at_index s i) as [ei|] eqn:Ei; [|discriminate].
    intros [= <-]. cbn [Idmap].
    pose proof (proj1 (at_index_Some _ _ _) Ej) as [Hj Nj].
    pose proof (proj1 (at_index_Some _ _ _) Ei) as [Hi Ni].
    set (s1 := set_index (Z.to_nat i) ej s).
    assert (L1 : List.length s1 = List.length s) by apply set_index_length.
    assert (J1 : at_index s1 j = Some ej).
    { destruct (Z.eq_dec j i) as [->|N].
      - apply at_index_set_same. lia.
      - unfold s1. rewrite at_index_set_other by lia. exact Ej. }
    assert (Aj : at_index (set_index (Z.to_nat j) ei s1) j = Some ei)
      by (apply at_index_set_same; lia).
    assert (Ai : at_index (set_index (Z.to_nat j) ei s1) i = Some ej).
    { destruct (Z.eq_dec i j) as [E|N].
      - subst j. rewrite Aj. congruence.
      - rewrite at_index_set_other by lia. apply at_index_set_same. lia. }
    assert (Ak : forall k, k <> i -> k <> j ->
                           at_index (set_index (Z.to_nat j) ei s1) k
                           = at_index s k).
    { intros k Hki Hkj. rewrite at_index_set_other by lia.
      unfold s1. now rewrite at_index_set_other by lia. }
    split; [now rewrite set_index_length, L1|].
    split.
    { apply (Permutation_cons_inv (a := ej)).
      apply at_index_Some in J1 as [_ J1].
      rewrite (set_index_perm _ ej ei s1 J1).
      symmetry. apply (set_index_perm _ ei ej s Ni). }
    split; [exact Ai|]. split; [exact Aj|]. split; [exact Ak|].
    rewrite Aj, Ai. f_equal. f_equal.
    apply at_index_ext; [now rewrite !set_index_length, L1|].
    intros k. destruct (Z.eq_dec k j) as [->|Nkj].
    + rewrite at_index_set_same by (rewrite !set_index_length, L1; lia).
      now rewrite Ej.
    + rewrite at_index_set_other by lia.
      destruct (Z.eq_dec k i) as [->|Nki].
      * rewrite at_index_set_same by (rewrite set_index_length, L1; lia).
        now rewrite Ei.
      * rewrite at_index_set_other by lia. now apply Ak.
Qed.

(** ** Append *)

(** X18: after Append has added the entry that a text parses to, a range
    that is not empty, lies in the ID space and carries a flag, Intersects
    finds the entry in the set, and Append of the same text fails with
    "Conflicting id mapping" and leaves the set as it is. *)
Theorem Append_refuses_the_same_text_twice (parse : string -> result Entry)
    (m m' : IdmapSet) (s : string) (e : Entry) :
  parse s = Ok e -> entry_ok e -> Isuid e || Isgid e = true ->
  Append parse m s = (m', None) ->
  Idmap m' = Idmap m ++ [e]
  /\ Intersects m' e = true
  /\ Append parse m' s = (m', Some (Errorf "Conflicting id mapping")).
Proof.
  intros P O T A. unfold Append in A. rewrite P in A.
  destruct (Intersects m e); [discriminate|]. inversion A; subst m'. clear A.
  cbn [Idmap].
  assert (I : Intersects {| Idmap := Idmap m ++ [e] |} e = true).
  { unfold Intersects. cbn [Idmap].
    destruct (Intersects_loop e (Idmap m ++ [e])) eqn:L; [reflexivity|].
    apply Intersects_loop_false in L.
    assert (Se : Entry_Intersects e e = false).
    { apply (proj1 (Forall_forall _ _) L). apply in_app_iff. right. now left. }
    assert (St : Entry_Intersects e e = true).
    { apply (Entry_Intersects_ok e e O O). unfold entry_ok in O.
      split; [|lia]. unfold shared_tag. now rewrite !andb_diag. }
    congruence. }
  split; [reflexivity|]. split; [exact I|].
  unfold Append. now rewrite P, I.
Qed.

Lemma Append_refuses_the_same_text_twice_witness :
  let parse := fun _ : string => Ok (uidE 100000 0 65536) in
  let m := mkIdmapSet [gidE 100000 0 65536] in
  let m' := mkIdmapSet [gidE 100000 0 65536; uidE 100000 0 65536] in
  Append parse m "u 0 100000 65536" = (m', None)
  /\ Append parse m' "u 0 100000 65536"
     = (m', Some (Errorf "Conflicting id mapping")).
Proof.
  intros parse m m'.
  assert (A : Append parse m "u 0 100000 65536" = (m', None))
    by (vm_compute; reflexivity).
  split; [exact A|].
  apply (Append_refuses_the_same_text_twice parse m m' "u 0 100000 65536"
           (uidE 100000 0 65536)).
  - reflexivity.
  - unfold entry_ok, id_space. cbn. lia.
  - reflexivity.
  - exact A.
Defined.

(** ** doShiftIntoNs *)

Lemma first_final_shift_zero (how : string) (tag : Entry -> bool) (id : Z)
    (es : list Entry) :
  (forall e, shift_how how e id = Ok 0) ->
  first_final_shift how tag id es = if existsb tag es then 0 else -1.
Proof.
  intros Z0. induction es as [|e es IH]; cbn [first_final_shift existsb];
    [reflexivity|].
  destruct (tag e); cbn [orb]; [|exact IH]. now rewrite Z0.
Qed.

(** X19: called with a direction that is neither "in" nor "out",
    doShiftIntoNs shifts nothing and reports no failure either: whatever
    the IDs, it returns 0 for the UID when the set has a UID entry and -1
    when it has none, and the same for the GID. *)
Theorem doShiftIntoNs_with_another_direction (m : IdmapSet) (uid gid : Z)
    (how : string) :
  how <> "in"%string -> how <> "out"%string ->
  doShiftIntoNs m uid gid how
  = (if existsb Isuid (Idmap m) then 0 else -1,
     if existsb Isgid (Idmap m) then 0 else -1).
Proof.
  intros Hin Hout. rewrite doShiftIntoNs_first_final.
  assert (Z0 : forall e id, shift_how how e id = Ok 0).
  { intros e id. unfold shift_how.
    destruct (String.eqb_spec how "in"); [contradiction|].
    destruct (String.eqb_spec how "out"); [contradiction|]. reflexivity. }
  now rewrite !first_final_shift_zero by (intros e; apply Z0).
Qed.

Lemma doShiftIntoNs_with_another_direction_witness :
  doShiftIntoNs (mkIdmapSet [uidE 100000 0 65536]) 100005 100005 "into"
  = (0, -1).
Proof.
  apply (doShiftIntoNs_with_another_direction
           (mkIdmapSet [uidE 100000 0 65536]) 100005 100005 "into");
    discriminate.
Defined.

Lemma first_shift_in_none (tag : Entry -> bool) (id : Z) (es : list Entry) :
  Forall entry_ok es ->
  (first_shift "in" tag id es = -1
   <-> forall e, In e es -> tag e = true ->
                 ~ Hostid e <= id < Hostid e + Maprange e)
  /\ -1 <= first_shift "in" tag id es < id_space.
Proof.
  induction 1 as [|e es Oe _ [IH1 IH2]]; cbn [first_shift].
  - split; [split; [intros _ e [] | reflexivity] | unfold id_space; lia].
  - destruct (tag e) eqn:T.
    + change (shift_how "in" e id) with (Entry_shiftIntoNS e id).
      destruct (Entry_shiftIntoNS e id) as [v|err] eqn:S.
      * destruct (shiftIntoNS_Ok_inv e id v Oe S) as [C V].
        unfold entry_ok, id_space in *. split; [|lia]. split; [lia|].
        intros N. elim (N e (or_introl eq_refl) T). exact C.
      * split; [|exact IH2]. rewrite IH1. split.
        -- intros N b [<-|I] Tb; [|now apply N].
           intros C. rewrite (shiftIntoNS_ok e id Oe C) in S. discriminate.
        -- intros N b I. apply N. now right.
    + split; [|exact IH2]. rewrite IH1. split.
      * intros N b [<-|I] Tb; [congruence | now apply N].
      * intros N b I. apply N. now right.
Qed.

Lemma first_shift_out_none (tag : Entry -> bool) (id : Z) (es : list Entry) :
  Forall entry_ok es ->
  (first_shift "out" tag id es = -1
   <-> forall e, In e es -> tag e = true ->
                 ~ Nsid e <= id < Nsid e + Maprange e)
  /\ -1 <= first_shift "out" tag id es < id_space.
Proof.
  induction 1 as [|e es Oe _ [IH1 IH2]]; cbn [first_shift].
  - split; [split; [intros _ e [] | reflexivity] | unfold id_space; lia].
  - destruct (tag e) eqn:T.
    + change (shift_how "out" e id) with (Entry_shiftFromNS e id).
      destruct (Entry_shiftFromNS e id) as [v|err] eqn:S.
      * destruct (shiftFromNS_Ok_inv e id v Oe S) as [C V].
        unfold entry_ok, id_space in *. split; [|lia]. split; [lia|].
        intros N. elim (N e (or_introl eq_refl) T). exact C.
      * split; [|exact IH2]. rewrite IH1. split.
        -- intros N b [<-|I] Tb; [|now apply N].
           intros C. rewrite (shiftFromNS_ok e id Oe C) in S. discriminate.
        -- intros N b I. apply N. now right.
    + split; [|exact IH2]. rewrite IH1. split.
      * intros N b [<-|I] Tb; [congruence | now apply N].
      * intros N b I. apply N. now right.
Qed.

(** X20: in a set of non-empty ranges in the ID space, ShiftIntoNs returns
    -1 for the UID exactly when no UID entry has the host UID in its host
    range, and ShiftFromNs returns -1 exactly when no UID entry has the UID
    in its namespace range; a result other than -1 is an ID of the ID
    space. The UID returned does not depend on the GID passed. The same
    holds for the GID, with the GID entries. *)
Theorem shift_fails_iff_no_entry_covers (m : IdmapSet) (uid gid : Z) :
  Forall entry_ok (Idmap m) ->
  (fst (ShiftIntoNs m uid gid) = -1
   <-> forall e, In e (Idmap m) -> Isuid e = true ->
                 ~ Hostid e <= uid < Hostid e + Maprange e)
  /\ (snd (ShiftIntoNs m uid gid) = -1
      <-> forall e, In e (Idmap m) -> Isgid e = true ->
                    ~ Hostid e <= gid < Hostid e + Maprange e)
  /\ (fst (ShiftFromNs m uid gid) = -1
      <-> forall e, In e (Idmap m) -> Isuid e = true ->
                    ~ Nsid e <= uid < Nsid e + Maprange e)
  /\ (snd (ShiftFromNs m uid gid) = -1
      <-> forall e, In e (Idmap m) -> Isgid e = true ->
                    ~ Nsid e <= gid < Nsid e + Maprange e)
  /\ -1 <= fst (ShiftIntoNs m uid gid) < id_space
  /\ -1 <= snd (ShiftIntoNs m uid gid) < id_space
  /\ -1 <= fst (ShiftFromNs m uid gid) < id_space
  /\ -1 <= snd (ShiftFromNs m uid gid) < id_space
  /\ (forall gid', fst (ShiftIntoNs m uid gid') = fst (ShiftIntoNs m uid gid))
  /\ (forall uid', snd (ShiftIntoNs m uid' gid) = snd (ShiftIntoNs m uid gid))
  /\ (forall gid', fst (ShiftFromNs m uid gid') = fst (ShiftFromNs m uid gid))
  /\ (forall uid', snd (ShiftFromNs m uid' gid) = snd (ShiftFromNs m uid gid)).
Proof.
  intros O. unfold ShiftIntoNs, ShiftFromNs.
  assert (Ein : forall u g,
             doShiftIntoNs m u g "in"
             = (first_shift "in" Isuid u (Idmap m),
                first_shift "in" Isgid g (Idmap m)))
    by (intros; apply doShiftIntoNs_ok; auto).
  assert (Eout : forall u g,
             doShiftIntoNs m u g "out"
             = (first_shift "out" Isuid u (Idmap m),
                first_shift "out" Isgid g (Idmap m)))
    by (intros; apply doShiftIntoNs_ok; auto).
  rewrite !Ein, !Eout. cbn [fst snd].
  destruct (first_shift_in_none Isuid uid (Idmap m) O) as [A1 A2].
  destruct (first_shift_in_none Isgid gid (Idmap m) O) as [B1 B2].
  destruct (first_shift_out_none Isuid uid (Idmap m) O) as [C1 C2].
  destruct (first_shift_out_none Isgid gid (Idmap m) O) as [D1 D2].
  split; [exact A1|]. split; [exact B1|]. split; [exact C1|].
  split; [exact D1|]. split; [exact A2|]. split; [exact B2|].
  split; [exact C2|]. split; [exact D2|].
  split; [intros g'; now rewrite Ein|]. split; [intros u'; now rewrite Ein|].
  split; [intros g'; now rewrite Eout | intros u'; now rewrite Eout].
Qed.

Lemma shift_fails_iff_no_entry_covers_witness :
  let m := mkIdmapSet [uidE 100000 0 65536; gidE 200000 0 10] in
  Forall entry_ok (Idmap m)
  /\ fst (ShiftIntoNs m 100005 7) = 5
  /\ (snd (ShiftIntoNs m 100005 7) = -1
      <-> forall e, In e (Idmap m) -> Isgid e = true ->
                    ~ Hostid e <= 7 < Hostid e + Maprange e).
Proof.
  intros m.
  assert (O : Forall entry_ok (Idmap m)).
  { repeat constructor; cbn; unfold id_space; lia. }
  split; [exact O|]. split; [vm_compute; reflexivity|].
  exact (proj1 (proj2 (shift_fails_iff_no_entry_covers m 100005 7 O))).
Defined.

(** ** AddSafe followed by ShiftFromNs *)

Lemma first_shift_out_unique (tag : Entry -> bool) (es : list Entry)
    (e : Entry) (x : Z) :
  tag = Isuid \/ tag = Isgid ->
  Forall entry_ok es -> ns_disjoint es = true ->
  In e es -> tag e = true -> Nsid e <= x < Nsid e + Maprange e ->
  first_shift "out" tag x es = Hostid e + (x - Nsid e).
Proof.
  intros Htag Ok D Hin T C. rewrite Forall_forall in Ok.
  destruct (in_split e es Hin) as [l1 [l2 E]]. rewrite E.
  apply first_shift_at; auto.
  - intros b Hb Tb w Sb. exfalso.
    change (shift_how "out" b x) with (Entry_shiftFromNS b x) in Sb.
    assert (Okb : entry_ok b)
      by (apply Ok; rewrite E; apply in_or_app; now left).
    apply (shiftFromNS_Ok_inv b _ w Okb) in Sb as [Cb _].
    assert (I : Entry_Intersects b e = true).
    { apply Entry_Intersects_ok; auto. split; [now apply (tag_shared tag)|].
      lia. }
    rewrite (ns_disjoint_pair es e b l1 l2 D E) in I; [discriminate|].
    apply in_or_app. now left.
  - change (shift_how "out" e x) with (Entry_shiftFromNS e x).
    apply shiftFromNS_ok; auto.
Qed.

Lemma AddSafe_result_holds_new_entry (l : list Entry) (i : Entry) :
  In i (AddSafe_result l i).
Proof.
  unfold AddSafe_result. apply in_app_iff.
  destruct (existsb (fun e => Entry_Intersects e i) l) eqn:X.
  - left. apply existsb_exists in X as [e [I E]].
    apply in_flat_map. exists e. split; [exact I|]. rewrite E.
    unfold split_pieces. apply in_app_iff. right. now left.
  - right. now left.
Qed.

(** X21: in a set of non-empty ranges in the ID space whose namespace ranges
    do not overlap on a shared tag, after AddSafe has added an entry that
    intersects at most one entry of the set, ShiftFromNs takes every
    namespace ID of the range of the new entry to the host ID the new
    entry gives it, for the UID when the new entry is a UID entry and for
    the GID when it is a GID entry: the new entry overrides what the set
    mapped the ID to. *)
Theorem AddSafe_then_ShiftFromNs (m m' : IdmapSet) (i : Entry) (x : Z) :
  Forall entry_ok (Idmap m) -> ns_disjoint (Idmap m) = true ->
  entry_ok i ->
  (List.length (filter (fun e => Entry_Intersects e i) (Idmap m)) <= 1)%nat ->
  AddSafe m i = (m', None) ->
  Nsid i <= x < Nsid i + Maprange i ->
  (Isuid i = true ->
   forall g, fst (ShiftFromNs m' x g) = Hostid i + (x - Nsid i))
  /\ (Isgid i = true ->
      forall u, snd (ShiftFromNs m' u x) = Hostid i + (x - Nsid i)).
Proof.
  intros O D Oi One A C.
  destruct (AddSafe_keeps_ns_disjoint m m' i O D Oi One A) as [O' D'].
  assert (I : In i (Idmap m')).
  { rewrite (AddSafe_Ok_result m m' i A).
    apply AddSafe_result_holds_new_entry. }
  unfold ShiftFromNs. split; intros T a.
  - rewrite doShiftIntoNs_ok by auto. cbn [fst].
    apply first_shift_out_unique; auto.
  - rewrite doShiftIntoNs_ok by auto. cbn [snd].
    apply first_shift_out_unique; auto.
Qed.

Lemma AddSafe_then_ShiftFromNs_witness :
  let m := mkIdmapSet [gidE 0 0 100; uidE 0 0 100] in
  let i := uidE 200 40 10 in
  let m' := mkIdmapSet [gidE 0 0 100; uidE 0 0 40; uidE 200 40 10;
                        uidE 50 50 50] in
  AddSafe m i = (m', None)
  /\ fst (ShiftFromNs m 45 0) = 45
  /\ (forall g, fst (ShiftFromNs m' 45 g) = 205).
Proof.
  intros m i m'.
  assert (A : AddSafe m i = (m', None)) by (vm_compute; reflexivity).
  split; [exact A|]. split; [vm_compute; reflexivity|].
  refine (proj1 (AddSafe_then_ShiftFromNs m m' i 45 _ _ _ _ A _) eq_refl).
  - repeat constructor; cbn; unfold id_space; lia.
  - vm_compute; reflexivity.
  - unfold entry_ok, id_space. cbn. lia.
  - vm_compute. lia.
  - cbn. lia.
Defined.

(** ** The sorting interface under [sort.Sort] *)

(** The exchange of two entries that the model of [sort.Sort] performs is
    the [Swap] of the set. *)
Lemma data_Swap_is_Swap (s : list Entry) (i j : nat) :
  (i < List.length s)%nat -> (j < List.length s)%nat ->
  Swap (mkIdmapSet s) (Z.of_nat i) (Z.of_nat j)
  = Some (mkIdmapSet (data_Swap s i j)).
Proof.
  intros Hi Hj. unfold Swap, data_Swap, at_index. cbn [Idmap].
  rewrite !Nat2Z.id.
  replace ((0 <=? Z.of_nat j) && (Z.of_nat j <? Z.of_nat (List.length s)))
    with true
    by (symmetry; apply andb_true_iff; rewrite Z.leb_le, Z.ltb_lt; lia).
  replace ((0 <=? Z.of_nat i) && (Z.of_nat i <? Z.of_nat (List.length s)))
    with true
    by (symmetry; apply andb_true_iff; rewrite Z.leb_le, Z.ltb_lt; lia).
  destruct (nth_error s j) eqn:Ej.
  - destruct (nth_error s i) eqn:Ei; [reflexivity|].
    apply nth_error_None in Ei. lia.
  - apply nth_error_None in Ej. lia.
Qed.
